(** * glice: dependency resolution, license enrichment and report rendering

    A shallow embedding of [glice.go] (package [glice]) and of [mod.Parse]
    (package [mod]), with the properties of the resolver, of the enrichment
    client, of the orchestration and of the CSV renderer.

    Go strings are byte sequences and are modelled by [string]; a
    [*Repository] is an address into an append-only heap of records, so that
    two variables holding the same pointer see each other's writes; the
    package-level [cache] is a [gmap] from module path to address. *)

From Stdlib Require Import String Ascii List Arith Lia.
From stdpp Require Import base option list gmap strings fin_maps.

Local Open Scope string_scope.
Local Open Scope list_scope.

(** ** Go's [strings] and slice primitives used by the package *)

Module GoStrings.

(** [s[n:]] on a string: [None] stands for the run-time panic
    "slice bounds out of range" raised when [n > len(s)]. *)
Fixpoint slice_from (n : nat) (s : string) : option string :=
  match n, s with
  | O, _ => Some s
  | S _, EmptyString => None
  | S k, String _ s' => slice_from k s'
  end.

Fixpoint has_prefix (p s : string) : bool :=
  match p, s with
  | EmptyString, _ => true
  | String _ _, EmptyString => false
  | String a p', String b s' => if Ascii.eqb a b then has_prefix p' s' else false
  end.

Definition snoc (s : string) (c : ascii) : string := s +:+ String c EmptyString.

(** The scanning loop of [strings.Split] for a non-empty separator:
    [skip] counts the bytes of a separator occurrence still to be
    consumed, [cur] is the piece being accumulated. *)
Fixpoint split_go (sep s : string) (skip : nat) (cur : string) : list string :=
  match s with
  | EmptyString => [cur]
  | String c s' =>
      match skip with
      | S k => split_go sep s' k cur
      | O =>
          if has_prefix sep s
          then cur :: split_go sep s' (String.length sep - 1) EmptyString
          else split_go sep s' 0 (snoc cur c)
      end
  end.

(** [strings.Split(s, sep)] for a non-empty separator (the package only splits on
    ["/"], ["."] and ["G"]).  The result is never empty. *)
Definition Split (s sep : string) : list string := split_go sep s 0 EmptyString.

End GoStrings.

(** [color.Attribute]: the foreground colours the package uses. *)
Inductive Attribute : Set :=
  | FgRed | FgGreen | FgYellow | FgBlue | FgMagenta | FgCyan
  | FgHiRed | FgHiGreen | FgHiYellow | FgHiBlue | FgHiMagenta | FgHiCyan | FgHiWhite.

(** Functions of Go's standard library and of [fatih/color] whose result
    depends on Unicode tables or on the terminal: they are taken as an
    interface, and [ascii_lib] below is one implementation. *)
Class GoLib := {
  (** [strings.EqualFold] *)
  EqualFold : string -> string -> bool;
  (** [strings.TrimSpace] *)
  TrimSpace : string -> string;
  (** [strings.ToLower] *)
  ToLower : string -> string;
  (** [color.New(clr).Sprintf(format)] *)
  color_Sprintf : Attribute -> string -> string
}.

(** ** Data model *)

(** [module.Version] of golang.org/x/mod: a module path and its version.
    (The second field is [Version] in Go; it is [ModVersion] here because
    [Repository] has a field of that name.) *)
Record module_Version := mkMod { Path : string; ModVersion : string }.

(** [Repository] holds information about the repository. *)
Record Repository := mkRepository {
  Name : string;
  Shortname : string;
  URL : string;
  Host : string;
  Author : string;
  Project : string;
  Text : string;
  License : string;
  Version : string
}.

#[global] Instance Repository_eq_dec : EqDecision Repository.
Proof. solve_decision. Defined.

Inductive error :=
  | ErrNoGoMod
  | ErrNoAPIKey
  | ErrOther (msg : string).

#[global] Instance error_eq_dec : EqDecision error.
Proof. solve_decision. Defined.

(** What a run does to the outside world, in program order. *)
Inductive event :=
  | EvReadFile (path : string)
  | EvLogFound (n : nat)
  | EvLogFetching (url : string)
  | EvLogError (e : error)
  | EvGithubLicense (author project : string)
  | EvGithubStar (author project : string)
  | EvVisit (url : string)
  | EvPrintVisitError (url : string) (e : error).

(** A [*Repository] is an index into [heap]. *)
Abbreviation ptr := nat (only parsing).

Record state := mkState {
  heap : list Repository;
  cache : gmap string ptr;   (* var cache = map[string]*Repository{} *)
  trace : list event
}.

(** The state of a process that has not resolved anything yet. *)
Definition init_state : state := mkState [] ∅ [].

Definition emit (ev : event) (st : state) : state :=
  mkState (heap st) (cache st) (trace st ++ [ev]).

(** ** Repository resolver *)

(** [getOtherRepo]: the three assignments to the fresh [lcs] are folded
    into its allocation. *)
Definition getOtherRepo (m : module_Version) (st : state) : ptr * state :=
  let name := Path m in
  match cache st !! name with
  | Some v => (v, st)
  | None =>
      let lcs := mkRepository name "" ("https://pkg.go.dev/" +:+ name) "pkg.go.dev"
                   "" "" "" "" (ModVersion m) in
      let p := length (heap st) in
      (p, mkState (heap st ++ [lcs]) (<[name := p]> (cache st)) (trace st))
  end.

(** [getRepository] returns on its first statement. *)
Definition getRepository (m : module_Version) (st : state) : ptr * state :=
  getOtherRepo m st.

(** Allocation of a [&Repository{...}] literal. *)
Definition alloc (r : Repository) (st : state) : ptr * state :=
  (length (heap st), mkState (heap st ++ [r]) (cache st) (trace st)).

(** The statements of [getRepository] that follow its first [return]; no
    execution reaches them.  [spl] is never empty, so [spl[0]] is total. *)
Definition getRepository_unreachable (m : module_Version) (st : state) : ptr * state :=
  let s := Path m in
  let spl := GoStrings.Split s "/" in
  let seg i := default "" (spl !! i) in
  let host := seg 0 in
  if bool_decide (host = "github.com") || bool_decide (host = "gitlab.com")
     || bool_decide (host = "bitbucket.org")
  then
    if Nat.ltb (length spl) 3 then alloc (mkRepository s "" "" "" "" "" "" "" "") st
    else alloc (mkRepository s ""
                  ("https://" +:+ seg 0 +:+ "/" +:+ seg 1 +:+ "/" +:+ seg 2)
                  (seg 0) (seg 1) (seg 2) "" "" (ModVersion m)) st
  else if bool_decide (host = "gopkg.in")
  then
    if Nat.ltb (length spl) 3 then alloc (mkRepository s "" "" "" "" "" "" "" "") st
    else
      let prj := default "" (GoStrings.Split (seg 2) "." !! 0) in
      alloc (mkRepository s "" ("https://github.com/" +:+ seg 1 +:+ "/" +:+ prj)
               "github.com" (seg 1) prj "" "" (ModVersion m)) st
  else getOtherRepo m st.

(** The loop of [ListRepositories] over the parsed modules:
    [repos[i] = getRepository(mod)]. *)
Fixpoint resolve_all (ms : list module_Version) (st : state) : list ptr * state :=
  match ms with
  | [] => ([], st)
  | m :: ms' =>
      let '(p, st1) := getRepository m st in
      let '(ps, st2) := resolve_all ms' st1 in
      (p :: ps, st2)
  end.

(** ** Results, panics and the outside world *)

(** A Go [(T, error)] pair of which exactly one side is meaningful. *)
Inductive result (A : Type) :=
  | Ok (a : A)
  | Err (e : error).
Arguments Ok {A} a.
Arguments Err {A} e.

(** A computation either completes or panics; a panic in any goroutine
    terminates the process. *)
Inductive outcome (A : Type) :=
  | Done (a : A)
  | Panic (msg : string).
Arguments Done {A} a.
Arguments Panic {A} msg.

#[global] Instance outcome_bind : MBind outcome := fun A B k x =>
  match x with
  | Done a => k a
  | Panic msg => Panic msg
  end.

#[global] Instance outcome_ret : MRet outcome := fun A a => Done a.

(** [modfile.Require] as [mod.Parse] reads it. *)
Record modfile_Require := mkRequire { Mod : module_Version; Indirect : bool }.

(** [github.RepositoryLicense] as [GetLicense] reads it: [License] and
    [License.Key] and [Content] are pointers, [None] is [nil]. *)
Record github_License := mkGhLicense { Key : option string }.
Record RepositoryLicense := mkRL {
  rl_License : option github_License;
  rl_Content : option string
}.

(** [RepositoryLicense.GetContent]: the empty string when [Content] is nil. *)
Definition GetContent (rl : RepositoryLicense) : string := default "" (rl_Content rl).

(** What [colly] delivers for one [Visit]: for each registered selector the
    [ChildText("a")] of every matching element, in document order, and the
    error [Visit] returns. *)
Record page := mkPage {
  version_spans : list string;   (* span[data-test-id="UnitHeader-version"] *)
  license_spans : list string;   (* span[data-test-id="UnitHeader-licenses"] *)
  repo_blocks : list string;     (* .UnitMeta-repo *)
  visit_err : option error
}.

(** Everything the package reads from outside the process. *)
Record world := mkWorld {
  Getenv : string -> string;                                (* os.Getenv *)
  filepath_Join : string -> string -> string;
  os_ReadFile : string -> result string;
  modfile_Parse : string -> result (list modfile_Require);
  gh_License : string -> string -> string -> result RepositoryLicense;
    (* token, owner, repo: gc.gh.Repositories.License *)
  colly_Visit : string -> page;
  csv_Write : list (list string) -> list string -> option error;
    (* records written so far, record: csv.Writer.Write *)
  csv_Error : list (list string) -> option error;
  json_Encode : list Repository -> option error
}.

(** ** Package [mod] *)

Definition goMod : string := "go.mod".

(** The loop of [mod.Parse] over [modFile.Require]. *)
Fixpoint parse_deps (reqs : list modfile_Require) (withIndirect : bool) : list module_Version :=
  match reqs with
  | [] => []
  | f :: reqs' =>
      if Indirect f && negb withIndirect then parse_deps reqs' withIndirect
      else Mod f :: parse_deps reqs' withIndirect
  end.

Definition Parse (w : world) (path : string) (withIndirect : bool) (st : state)
  : result (list module_Version) * state :=
  let file := filepath_Join w path goMod in
  let st := emit (EvReadFile file) st in
  match os_ReadFile w file with
  | Err e => (Err e, st)
  | Ok bts =>
      match modfile_Parse w bts with
      | Err e => (Err e, st)
      | Ok reqs => (Ok (parse_deps reqs withIndirect), st)
      end
  end.

Definition ListRepositories (w : world) (path : string) (withIndirect : bool) (st : state)
  : result (list ptr) * state :=
  match Parse w path withIndirect st with
  | (Err e, st1) => (Err e, st1)
  | (Ok modules, st1) =>
      let '(repos, st2) := resolve_all modules st1 in
      (Ok repos, st2)
  end.

(** ** License enrichment client *)

Definition licenseCol : gmap string (string * Attribute) :=
  list_to_map
    [ ("other", ("Other", FgBlue));
      ("mit", ("MIT", FgGreen));
      ("lgpl-3.0", ("LGPL-3.0", FgCyan));
      ("mpl-2.0", ("MPL-2.0", FgHiBlue));
      ("agpl-3.0", ("AGPL-3.0", FgHiCyan));
      ("unlicense", ("Unlicense", FgHiRed));
      ("apache-2.0", ("Apache-2.0", FgHiGreen));
      ("gpl-3.0", ("GPL-3.0", FgHiMagenta)) ].

Definition licenseColMap : gmap string Attribute :=
  list_to_map
    [ ("mit", FgGreen);
      ("apache-2.0", FgHiGreen);
      ("gpl-2.0", FgMagenta);
      ("gpl-3.0", FgHiMagenta);
      ("lgpl-2.1", FgCyan);
      ("lgpl-3.0", FgHiCyan);
      ("mpl-2.0", FgHiBlue);
      ("bsd-2-clause", FgYellow);
      ("bsd-3-clause", FgHiYellow);
      ("epl-2.0", FgRed);
      ("artistic-2.0", FgHiRed);
      ("bsl-1.0", FgBlue);
      ("cc0-1.0", FgHiWhite);
      ("unlicense", FgHiRed);
      ("agpl-3.0", FgHiCyan);
      ("other", FgBlue) ].

Definition getLicenseColor `{GoLib} (license : string) : Attribute :=
  let license := ToLower license in
  match licenseColMap !! license with
  | Some color => color
  | None => FgYellow
  end.

(** Field assignments [r.F = v]. *)
Definition set_Shortname (v : string) (r : Repository) : Repository :=
  mkRepository (Name r) v (URL r) (Host r) (Author r) (Project r) (Text r) (License r) (Version r).
Definition set_Project (v : string) (r : Repository) : Repository :=
  mkRepository (Name r) (Shortname r) (URL r) (Host r) (Author r) v (Text r) (License r) (Version r).
Definition set_Text (v : string) (r : Repository) : Repository :=
  mkRepository (Name r) (Shortname r) (URL r) (Host r) (Author r) (Project r) v (License r) (Version r).
Definition set_License (v : string) (r : Repository) : Repository :=
  mkRepository (Name r) (Shortname r) (URL r) (Host r) (Author r) (Project r) (Text r) v (Version r).
Definition set_Version (v : string) (r : Repository) : Repository :=
  mkRepository (Name r) (Shortname r) (URL r) (Host r) (Author r) (Project r) (Text r) (License r) v.

(** [gitClient]: the token the GitHub client was built with, whether it
    is authenticated, and the star option. *)
Record gitClient := mkGitClient { gh_token : string; gh_logged : bool; star : bool }.

Definition newGitClient (key : string) (star : bool) : gitClient :=
  mkGitClient key (negb (String.eqb key "")) star.

Section Enrichment.
Context `{GoLib}.
Variable w : world.

(** The callback registered for the version header. *)
Definition onVersion (text : string) (r : Repository) : outcome Repository :=
  match GoStrings.slice_from 9 text with
  | None => Panic "slice bounds out of range"
  | Some version =>
      let version := default "" (GoStrings.Split version "G" !! 0) in
      let version := TrimSpace version in
      if negb (EqualFold (Version r) version)
      then Done (set_Version (Version r +:+ " (!new:" +:+ version +:+ ")") r)
      else Done r
  end.

(** The callback registered for the license header. *)
Definition onLicense (license : string) (r : Repository) : Repository :=
  set_Shortname (color_Sprintf (getLicenseColor license) license) r.

(** The callback registered for the repository block. *)
Definition onRepo (repo : string) (r : Repository) : Repository :=
  set_Project repo r.

Fixpoint run_onVersion (texts : list string) (r : Repository) : outcome Repository :=
  match texts with
  | [] => Done r
  | t :: texts' => r1 ← onVersion t r; run_onVersion texts' r1
  end.

(** [colly] runs the callbacks selector by selector in registration
    order, each on its matching elements in document order. *)
Definition run_callbacks (pg : page) (r : Repository) : outcome Repository :=
  r1 ← run_onVersion (version_spans pg) r;
  let r2 := foldl (fun acc t => onLicense t acc) r1 (license_spans pg) in
  Done (foldl (fun acc t => onRepo t acc) r2 (repo_blocks pg)).

(** The [github.com] case of [GetLicense]. *)
Definition GetLicense_github (gc : gitClient) (r : Repository)
  : outcome (Repository * option error * list event) :=
  let call := EvGithubLicense (Author r) (Project r) in
  match gh_License w (gh_token gc) (Author r) (Project r) with
  | Err err => Done (r, Some err, [call])
  | Ok rl =>
      match rl_License rl with
      | None => Panic "nil pointer dereference"
      | Some lic =>
          match Key lic with
          | None => Panic "nil pointer dereference"
          | Some key =>
              let '(name, clr) := default ("", FgYellow) (licenseCol !! key) in
              let '(name, clr) :=
                if String.eqb name "" then (key, FgYellow) else (name, clr) in
              let r := set_Shortname (color_Sprintf clr name) r in
              let r := set_License name r in
              let r := set_Text (GetContent rl) r in
              Done (r, None,
                    if star gc && gh_logged gc
                    then [call; EvGithubStar (Author r) (Project r)]
                    else [call])
          end
      end
  end.

(** The [pkg.go.dev] case of [GetLicense]. *)
Definition GetLicense_pkggodev (r : Repository)
  : outcome (Repository * option error * list event) :=
  let pg := colly_Visit w (URL r) in
  r' ← run_callbacks pg r;
  Done (r', None,
        match visit_err pg with
        | Some err => [EvVisit (URL r); EvPrintVisitError (URL r) err]
        | None => [EvVisit (URL r)]
        end).

(** [GetLicense] on the record [r] points to: the record after the call,
    the returned error and what the call did to the outside world. *)
Definition GetLicense_on (gc : gitClient) (r : Repository)
  : outcome (Repository * option error * list event) :=
  if bool_decide (Host r = "github.com") then GetLicense_github gc r
  else if bool_decide (Host r = "pkg.go.dev") then GetLicense_pkggodev r
  else Done (r, None, []).

(** [GetLicense] for a repository: [r] is a pointer, the writes go to the
    heap. *)
Definition GetLicense (gc : gitClient) (r : ptr) (st : state)
  : outcome (option error * state) :=
  match heap st !! r with
  | None => Panic "nil pointer dereference"
  | Some rec =>
      '(rec', err, evs) ← GetLicense_on gc rec;
      Done (err, mkState (<[r := rec']> (heap st)) (cache st) (trace st ++ evs))
  end.

End Enrichment.

(** ** Client: orchestration and rendering *)

Record Client := mkClient {
  dependencies : list ptr;
  path : string;
  format : string;
  output : string
}.

Definition headerRow : list string := ["Dependency"; "RepoURL"; "License"; "Version"].

Section Orchestration.
Context `{GoLib}.
Variable w : world.

(** What one worker goroutine does after it is started: call
    [GetLicense], log the error if there is one. *)
Definition worker (gc : gitClient) (r1 : ptr) (st : state) : outcome state :=
  '(err1, st1) ← GetLicense w gc r1 st;
  Done (match err1 with
        | Some e => emit (EvLogError e) st1
        | None => st1
        end).

(** The dispatch loop of [ParseDependencies] under the schedule in which
    every worker runs to completion before the next one is dispatched.
    The other schedules are those of [step] below; over distinct
    repositories they all end with the heap this one computes
    ([every_schedule_agrees]). *)
Fixpoint enrich (gc : gitClient) (repos : list ptr) (st : state) : outcome state :=
  match repos with
  | [] => Done st
  | r :: repos' =>
      match heap st !! r with
      | None => Panic "nil pointer dereference"
      | Some rec =>
          st1 ← worker gc r (emit (EvLogFetching (URL rec)) st);
          enrich gc repos' st1
      end
  end.

Definition ParseDependencies (c : Client) (includeIndirect thanks : bool) (st : state)
  : outcome (option error * Client * state) :=
  let githubAPIKey := Getenv w "GITHUB_API_KEY" in
  if thanks && String.eqb githubAPIKey ""
  then Done (Some ErrNoAPIKey, c, st)
  else
    match ListRepositories w (path c) includeIndirect st with
    | (Err err, st1) => Done (Some err, c, st1)
    | (Ok repos, st1) =>
        let st2 := emit (EvLogFound (length repos)) st1 in
        let gitCl := newGitClient githubAPIKey thanks in
        st3 ← enrich gitCl repos st2;
        Done (None, mkClient repos (path c) (format c) (output c), st3)
    end.

(** What [Print] hands to its writer. *)
Inductive rendering :=
  | Nothing
  | Table (header : list string) (rows : list (list string))
  | Json (deps : list Repository)
  | Csv (records : list (list string)).

(** Dereference of every [d] in [c.dependencies]. *)
Fixpoint deref_all (ps : list ptr) (st : state) : outcome (list Repository) :=
  match ps with
  | [] => Done []
  | p :: ps' =>
      match heap st !! p with
      | None => Panic "nil pointer dereference"
      | Some r => rs ← deref_all ps' st; Done (r :: rs)
      end
  end.

(** The loop of the [csv] case: one [csvW.Write] per dependency, stopping
    at the first write error. *)
Fixpoint csv_rows (ds : list Repository) (written : list (list string))
  : list (list string) * option error :=
  match ds with
  | [] => (written, csv_Error w written)
  | d :: ds' =>
      let record := [Project d; URL d; License d] in
      match csv_Write w written record with
      | Some err => (written, Some err)
      | None => csv_rows ds' (written ++ [record])
      end
  end.

Definition invalid_output (c : Client) : error :=
  ErrOther ("invalid output provided (" +:+ output c
            +:+ ") - allowed ones are [stdout, json, csv]").

Definition Print (c : Client) (st : state) : outcome (rendering * option error) :=
  if Nat.ltb (length (dependencies c)) 1 then Done (Nothing, None)
  else if String.eqb (format c) "table" then
    ds ← deref_all (dependencies c) st;
    Done (Table headerRow
            (map (fun d => [Name d; color_Sprintf FgBlue (URL d); Shortname d; Version d]) ds),
          Some (invalid_output c))
  else if String.eqb (format c) "json" then
    ds ← deref_all (dependencies c) st;
    Done (Json ds, json_Encode w ds)
  else if String.eqb (format c) "csv" then
    match csv_Write w [] headerRow with
    | Some err => Done (Csv [], Some err)
    | None =>
        ds ← deref_all (dependencies c) st;
        let '(records, err) := csv_rows ds [headerRow] in
        Done (Csv records, err)
    end
  else Done (Nothing, Some (invalid_output c)).

End Orchestration.

(** ** The goroutines of [ParseDependencies]

    The dispatch loop and its workers as an interleaving semantics.  The
    main goroutine is at the loop head ([MLoop]), between [wg.Add(1)] and
    the send on [sem] ([MAdded]), between that send and the [go] statement
    ([MAcquired]), at [wg.Wait()] ([MWait]) or past it ([MReturned]).  A
    worker has been created ([Spawned]), is inside [GetLicense]
    ([InFlight]), has come back from it and logged its error ([Returned]),
    has run the deferred receive from [sem] ([Released]) and the deferred
    [wg.Done()] ([Finished]).  A call of [GetLicense] takes effect on the
    heap when it returns. *)

Inductive mainpc :=
  | MLoop (rest : list ptr)
  | MAdded (r : ptr) (rest : list ptr)
  | MAcquired (r : ptr) (rest : list ptr)
  | MWait
  | MReturned.

Inductive phase := Spawned | InFlight | Returned | Released | Finished.

#[global] Instance phase_eq_dec : EqDecision phase.
Proof. solve_decision. Defined.

Record pstate := mkP {
  pc : mainpc;
  sem : nat;                     (* len(sem), of capacity 5 *)
  wg : nat;                      (* the WaitGroup counter *)
  workers : list (ptr * phase);
  data : state
}.

(** A run is a live configuration, or the process crashed by a panic. *)
Inductive config :=
  | Live (s : pstate)
  | Crashed.

Definition sem_capacity : nat := 5.

Section Schedule.
Context `{GoLib}.
Variable w : world.
Variable gc : gitClient.

Inductive step : config -> config -> Prop :=
  | step_iter r rest k g ws st rec :
      heap st !! r = Some rec ->
      step (Live (mkP (MLoop (r :: rest)) k g ws st))
           (Live (mkP (MAdded r rest) k (S g) ws (emit (EvLogFetching (URL rec)) st)))
  | step_iter_nil r rest k g ws st :
      heap st !! r = None ->
      step (Live (mkP (MLoop (r :: rest)) k g ws st)) Crashed
  | step_acquire r rest k g ws st :
      k < sem_capacity ->
      step (Live (mkP (MAdded r rest) k g ws st))
           (Live (mkP (MAcquired r rest) (S k) g ws st))
  | step_go r rest k g ws st :
      step (Live (mkP (MAcquired r rest) k g ws st))
           (Live (mkP (MLoop rest) k g (ws ++ [(r, Spawned)]) st))
  | step_loop_end k g ws st :
      step (Live (mkP (MLoop []) k g ws st)) (Live (mkP MWait k g ws st))
  | step_wait k ws st :
      step (Live (mkP MWait k 0 ws st)) (Live (mkP MReturned k 0 ws st))
  | step_start i r m k g ws st :
      ws !! i = Some (r, Spawned) ->
      step (Live (mkP m k g ws st))
           (Live (mkP m k g (<[i := (r, InFlight)]> ws) st))
  | step_return i r m k g ws st st' :
      ws !! i = Some (r, InFlight) ->
      worker w gc r st = Done st' ->
      step (Live (mkP m k g ws st))
           (Live (mkP m k g (<[i := (r, Returned)]> ws) st'))
  | step_panic i r m k g ws st msg :
      ws !! i = Some (r, InFlight) ->
      worker w gc r st = Panic msg ->
      step (Live (mkP m k g ws st)) Crashed
  | step_release i r m k g ws st :
      ws !! i = Some (r, Returned) ->
      step (Live (mkP m (S k) g ws st))
           (Live (mkP m k g (<[i := (r, Released)]> ws) st))
  | step_done i r m k g ws st :
      ws !! i = Some (r, Released) ->
      step (Live (mkP m k (S g) ws st))
           (Live (mkP m k g (<[i := (r, Finished)]> ws) st))
  | step_done_negative i r m k ws st :
      (* wg.Done() on a zero counter panics *)
      ws !! i = Some (r, Released) ->
      step (Live (mkP m k 0 ws st)) Crashed.

Inductive steps : config -> config -> Prop :=
  | steps_refl c : steps c c
  | steps_step c1 c2 c3 : steps c1 c2 -> step c2 c3 -> steps c1 c3.

(** The configuration in which the dispatch loop is entered. *)
Definition dispatch_start (repos : list ptr) (st : state) : config :=
  Live (mkP (MLoop repos) 0 0 [] st).

Definition count_phase (ph : phase) (ws : list (ptr * phase)) : nat :=
  length (filter (fun x => x.2 = ph) ws).

(** The number of enrichment operations in flight: the workers inside
    [GetLicense]. *)
Definition in_flight (c : config) : nat :=
  match c with
  | Live s => count_phase InFlight (workers s)
  | Crashed => 0
  end.

(** The number of worker goroutines that hold a slot of [sem]. *)
Definition holding (c : config) : nat :=
  match c with
  | Live s =>
      count_phase Spawned (workers s) + count_phase InFlight (workers s)
      + count_phase Returned (workers s)
  | Crashed => 0
  end.

End Schedule.

(** ** An implementation of the library interface on ASCII text *)

Module AsciiLib.

Definition lower (c : ascii) : ascii :=
  let n := nat_of_ascii c in
  if Nat.leb 65 n && Nat.leb n 90 then ascii_of_nat (n + 32) else c.

Fixpoint map_string (f : ascii -> ascii) (s : string) : string :=
  match s with
  | EmptyString => EmptyString
  | String c s' => String (f c) (map_string f s')
  end.

Definition is_space (c : ascii) : bool :=
  let n := nat_of_ascii c in
  (Nat.leb 9 n && Nat.leb n 13) || Nat.eqb n 32.

Fixpoint trim_left (s : string) : string :=
  match s with
  | EmptyString => EmptyString
  | String c s' => if is_space c then trim_left s' else s
  end.

Fixpoint rev_string (s acc : string) : string :=
  match s with
  | EmptyString => acc
  | String c s' => rev_string s' (String c acc)
  end.

Definition trim (s : string) : string :=
  rev_string (trim_left (rev_string (trim_left s) EmptyString)) EmptyString.

Definition equal_fold (s t : string) : bool :=
  String.eqb (map_string lower s) (map_string lower t).

End AsciiLib.

(** Case folding, trimming and lower-casing on ASCII bytes; colouring
    switched off ([color.NoColor]). *)
Definition ascii_lib : GoLib := {|
  EqualFold := AsciiLib.equal_fold;
  TrimSpace := AsciiLib.trim;
  ToLower := AsciiLib.map_string AsciiLib.lower;
  color_Sprintf := fun _ s => s
|}.

(** A world with no manifest, a failing license API and empty pages. *)
Definition quiet_world : world := {|
  Getenv := fun _ => "";
  filepath_Join := fun a b => a +:+ "/" +:+ b;
  os_ReadFile := fun _ => Err (ErrOther "open go.mod: no such file or directory");
  modfile_Parse := fun _ => Ok [];
  gh_License := fun _ _ _ => Err (ErrOther "404 Not Found");
  colly_Visit := fun _ => mkPage [] [] [] None;
  csv_Write := fun _ _ => None;
  csv_Error := fun _ => None;
  json_Encode := fun _ => None
|}.

(** A project that requires [example.com/m v1.0.0], whose page on the
    metadata service shows the given version headers. *)
Definition page_world (versions : list string) : world := {|
  Getenv := fun _ => "";
  filepath_Join := fun a b => a +:+ "/" +:+ b;
  os_ReadFile := fun _ => Ok "require example.com/m v1.0.0";
  modfile_Parse := fun _ => Ok [mkRequire (mkMod "example.com/m" "v1.0.0") false];
  gh_License := fun _ _ _ => Err (ErrOther "404 Not Found");
  colly_Visit := fun _ => mkPage versions ["MIT"] ["example.com/m"] None;
  csv_Write := fun _ _ => None;
  csv_Error := fun _ => None;
  json_Encode := fun _ => None
|}.

(** Two enriched dependencies of the fallback path, and a client that
    renders them as CSV. *)
Definition yaml_repo : Repository :=
  mkRepository "gopkg.in/yaml.v2" "Apache-2.0" "https://pkg.go.dev/gopkg.in/yaml.v2"
    "pkg.go.dev" "" "github.com/go-yaml/yaml" "" "" "v2.4.0".

Definition errors_repo : Repository :=
  mkRepository "github.com/pkg/errors" "BSD-2-Clause"
    "https://pkg.go.dev/github.com/pkg/errors"
    "pkg.go.dev" "" "github.com/pkg/errors" "" "" "v0.9.1".

Definition report_state : state := mkState [yaml_repo; errors_repo] ∅ [].

Definition csv_client : Client := mkClient [0; 1] "." "csv" "stdout".

(** ** Vocabulary of the properties *)

(** The version the manifest's first entry for [name] carries. *)
Fixpoint first_version (ms : list module_Version) (name : string) : option string :=
  match ms with
  | [] => None
  | m :: ms' => if String.eqb (Path m) name then Some (ModVersion m) else first_version ms' name
  end.



(** The record [getOtherRepo] builds on a cache miss. *)
Definition fallback_repo (name version : string) : Repository :=
  mkRepository name "" ("https://pkg.go.dev/" +:+ name) "pkg.go.dev" "" "" "" "" version.

(** Every cached path points to the record built when it was first
    resolved among [seen], and only the paths of [seen] are cached. *)
Definition cache_resolved (seen : list module_Version) (st : state) : Prop :=
  forall name,
    match cache st !! name with
    | Some p => exists v, first_version seen name = Some v
                          /\ heap st !! p = Some (fallback_repo name v)
    | None => first_version seen name = None
    end.

(** The fields no callback of the fallback path assigns. *)
Definition same_identity (r r' : Repository) : Prop :=
  Name r' = Name r /\ URL r' = URL r /\ Host r' = Host r /\ Author r' = Author r
  /\ Text r' = Text r /\ License r' = License r.

(** Two runs end alike: both panic, or both complete with the same heap
    and the same cache (their traces may differ). *)
Definition agree (o1 o2 : outcome state) : Prop :=
  match o1, o2 with
  | Done s1, Done s2 => heap s1 = heap s2 /\ cache s1 = cache s2
  | Panic _, Panic _ => True
  | _, _ => False
  end.

(** One if the main goroutine has sent on [sem] for a worker it has not
    started yet. *)
Definition acquired (m : mainpc) : nat :=
  match m with
  | MAcquired _ _ => 1
  | _ => 0
  end.

(** The slots taken in [sem] are those of the workers that hold one and
    of the worker about to be started, and there are at most five. *)
Definition sem_invariant (c : config) : Prop :=
  match c with
  | Live s => sem s = holding c + acquired (pc s) /\ sem s <= sem_capacity
  | Crashed => True
  end.

(** The repositories the main goroutine has still to hand to a worker. *)
Definition pending (m : mainpc) : list ptr :=
  match m with
  | MLoop rest => rest
  | MAdded r rest | MAcquired r rest => r :: rest
  | MWait | MReturned => []
  end.

(** One if the main goroutine has called [wg.Add(1)] for a worker it has
    not started yet. *)
Definition added (m : mainpc) : nat :=
  match m with
  | MAdded _ _ | MAcquired _ _ => 1
  | _ => 0
  end.

Definition unfinished (ws : list (ptr * phase)) : nat :=
  length (filter (fun x => x.2 <> Finished) ws).

(** Whether a worker in this phase has come back from [GetLicense]. *)
Definition has_returned (ph : phase) : bool :=
  match ph with
  | Spawned | InFlight => false
  | Returned | Released | Finished => true
  end.

(** The record [GetLicense] leaves when it comes back. *)
Definition enriched `{GoLib} (w : world) (gc : gitClient) (rec : Repository)
  : option Repository :=
  match GetLicense_on w gc rec with
  | Done (rec', _, _) => Some rec'
  | Panic _ => None
  end.

(** A record is the enriched one exactly when its worker has come back. *)
Definition record_ok `{GoLib} (w : world) (gc : gitClient) (st0 st : state)
    (p : ptr) (ph : phase) : Prop :=
  if has_returned ph
  then is_Some (heap st !! p) /\ heap st !! p = heap st0 !! p ≫= enriched w gc
  else heap st !! p = heap st0 !! p.

(** What holds of every configuration of a run over [repos0] started in
    [st0]: the workers are those of the repositories dispatched so far,
    the counter of the WaitGroup counts the workers that have not finished,
    and only the records of the workers that have come back differ from
    those of [st0]. *)
Definition run_invariant `{GoLib} (w : world) (gc : gitClient)
    (repos0 : list ptr) (st0 : state) (c : config) : Prop :=
  match c with
  | Crashed => True
  | Live s =>
      (fst <$> workers s) ++ pending (pc s) = repos0
      /\ cache (data s) = cache st0
      /\ length (heap (data s)) = length (heap st0)
      /\ wg s = unfinished (workers s) + added (pc s)
      /\ (pc s = MReturned -> wg s = 0)
      /\ (forall i p ph, workers s !! i = Some (p, ph) -> record_ok w gc st0 (data s) p ph)
      /\ (forall p, p ∉ (fst <$> workers s) -> heap (data s) !! p = heap st0 !! p)
  end.

(** Five resolved repositories, to be enriched. *)
Definition five_repos : list ptr * state :=
  resolve_all [mkMod "a.io/a" "v1"; mkMod "b.io/b" "v1"; mkMod "c.io/c" "v1";
               mkMod "d.io/d" "v1"; mkMod "e.io/e" "v1"] init_state.

(** ** The rest of the package: construction, printing to a target, license files *)

Definition validFormats : gmap string bool :=
  list_to_map [("table", true); ("json", true); ("csv", true)].

(** [validOutputs] to print to. *)
Definition validOutputs : gmap string bool :=
  list_to_map [("stdout", true); ("file", true)].

(** The calls the package makes on the file system, other than reading the
    manifest. *)
Inductive fs_op :=
  | Stat (name : string)
  | Mkdir (name : string)
  | Create (name : string)
  | Write (name : string) (data : string)
  | Sync (name : string)
  | Close (name : string).

#[global] Instance fs_op_eq_dec : EqDecision fs_op.
Proof. solve_decision. Defined.

(** The calls made so far, each with the error it returned. *)
Abbreviation fs_log := (list (fs_op * option error)) (only parsing).

(** The file system and the library functions next to it: what a call
    returns may depend on every call made before. *)
Record files := mkFiles {
  fs_result : list (fs_op * option error) -> fs_op -> option error;
  os_IsExist : error -> bool;
  filepath_Join3 : string -> string -> string -> string;
  base64_DecodeString : string -> result string      (* base64.StdEncoding *)
}.

Definition fs_do (fs : files) (op : fs_op) (log : fs_log) : option error * fs_log :=
  let r := fs_result fs log op in
  (r, log ++ [(op, r)]).

(** [mod.Exists] *)
Definition Exists (w : world) (fs : files) (path : string) (log : fs_log) : bool * fs_log :=
  let '(err, log1) := fs_do fs (Stat (filepath_Join w path goMod)) log in
  (match err with
   | None => true
   | Some e => os_IsExist fs e
   end, log1).

Definition NewClient (w : world) (fs : files) (path format output : string) (log : fs_log)
  : result Client * fs_log :=
  if negb (default false (validFormats !! format))
  then (Err (ErrOther ("invalid format provided (" +:+ output
                       +:+ ") - allowed ones are [table, json, csv]")), log)
  else if negb (default false (validOutputs !! output))
  then (Err (ErrOther ("invalid output provided (" +:+ output
                       +:+ ") - allowed ones are [stdout, file]")), log)
  else
    let '(found, log1) := Exists w fs path log in
    if negb found then (Err ErrNoGoMod, log1)
    else (Ok (mkClient [] path format output), log1).

(** [PrintTo]: the returned error, what was handed to [writeTo], and the
    state and file-system log it leaves. *)
Definition PrintTo `{GoLib} (w : world) (fs : files) (path format output : string)
    (indirect : bool) (st : state) (log : fs_log)
  : outcome (option error * rendering * state * fs_log) :=
  match NewClient w fs path format output log with
  | (Err err, log1) => Done (Some err, Nothing, st, log1)
  | (Ok c, log1) =>
      '(err, c1, st1) ← ParseDependencies w c indirect false st;
      match err with
      | Some err => Done (Some err, Nothing, st1, log1)
      | None =>
          '(out, _) ← Print w c1 st1;
          Done (None, out, st1, log1)
      end
  end.

Module glice.

(** The package-level [Print]. *)
Definition Print `{GoLib} (w : world) (fs : files) (path : string) (indirect : bool)
    (st : state) (log : fs_log)
  : outcome (option error * rendering * state * fs_log) :=
  PrintTo w fs path "table" "stdout" indirect st log.

End glice.

(** The loop of [WriteLicensesToFile]. *)
Fixpoint write_licenses (fs : files) (cpath : string) (ds : list ptr) (st : state)
    (log : fs_log) : outcome (option error * fs_log) :=
  match ds with
  | [] => Done (None, log)
  | d :: ds' =>
      match heap st !! d with
      | None => Panic "nil pointer dereference"
      | Some r =>
          if String.eqb (Text r) "" then write_licenses fs cpath ds' st log
          else
            match base64_DecodeString fs (Text r) with
            | Err err => Done (Some err, log)
            | Ok dec =>
                let name := filepath_Join3 fs cpath "licenses"
                              (Author r +:+ "-" +:+ Project r +:+ "-license.MD") in
                match fs_do fs (Create name) log with
                | (Some err, log1) => Done (Some err, log1)
                | (None, log1) =>
                    match fs_do fs (Write name dec) log1 with
                    | (Some err, log2) => Done (Some err, log2)
                    | (None, log2) =>
                        match fs_do fs (Sync name) log2 with
                        | (Some err, log3) => Done (Some err, log3)
                        | (None, log3) =>
                            match fs_do fs (Close name) log3 with
                            | (Some err, log4) => Done (Some err, log4)
                            | (None, log4) => write_licenses fs cpath ds' st log4
                            end
                        end
                    end
                end
            end
      end
  end.

Definition WriteLicensesToFile (fs : files) (c : Client) (st : state) (log : fs_log)
  : outcome (option error * fs_log) :=
  if Nat.ltb (length (dependencies c)) 1 then Done (None, log)
  else
    let '(_, log1) := fs_do fs (Mkdir "licenses") log in
    write_licenses fs (path c) (dependencies c) st log1.

(** ** Vocabulary of the further properties *)

Definition is_github_call (ev : event) : bool :=
  match ev with
  | EvGithubLicense _ _ | EvGithubStar _ _ => true
  | _ => false
  end.

Definition is_error_log (ev : event) : bool :=
  match ev with
  | EvLogError _ => true
  | _ => false
  end.

(** A record as the resolver builds it, whatever enrichment has since
    written to [Shortname], [Project] and [Version]. *)
Definition fallback_shaped (r : Repository) : Prop :=
  Host r = "pkg.go.dev" /\ URL r = "https://pkg.go.dev/" +:+ Name r
  /\ Author r = "" /\ Text r = "" /\ License r = "".

(** The store of a process that has only run this package: every cached
    path points to the record of that name, there is one record per cached
    path, and every record has the resolver's shape. *)
Definition store_ok (st : state) : Prop :=
  (forall name p, cache st !! name = Some p ->
     exists r, heap st !! p = Some r /\ Name r = name)
  /\ size (cache st) = length (heap st)
  /\ Forall fallback_shaped (heap st).

(** The rows of the [csv] and of the [table] rendering. *)
Definition csv_row (d : Repository) : list string := [Project d; URL d; License d].

Definition table_row `{GoLib} (d : Repository) : list string :=
  [Name d; color_Sprintf FgBlue (URL d); Shortname d; Version d].

(** Steps left to a worker in each phase, and to the main goroutine:
    seven per repository still to dispatch. *)
Definition weight (ph : phase) : nat :=
  match ph with
  | Spawned => 4
  | InFlight => 3
  | Returned => 2
  | Released => 1
  | Finished => 0
  end.

Definition main_weight (m : mainpc) : nat :=
  match m with
  | MLoop rest => 7 * length rest + 2
  | MAdded _ rest => 7 * length rest + 8
  | MAcquired _ rest => 7 * length rest + 7
  | MWait => 1
  | MReturned => 0
  end.

Definition steps_left (c : config) : nat :=
  match c with
  | Live s => main_weight (pc s) + sum_list_with (fun x => weight x.2) (workers s)
  | Crashed => 0
  end.

(** What the synchronisation keeps: the workers are those of the
    repositories dispatched so far, the WaitGroup counts the workers that
    have not finished, and it is zero once [wg.Wait()] has returned. *)
Definition sync_invariant (repos : list ptr) (c : config) : Prop :=
  match c with
  | Crashed => True
  | Live s =>
      (fst <$> workers s) ++ pending (pc s) = repos
      /\ wg s = unfinished (workers s) + added (pc s)
      /\ (pc s = MReturned -> wg s = 0)
  end.

Section Counted.
Context `{GoLib}.
Variable w : world.
Variable gc : gitClient.

(** Runs of a given number of steps. *)
Inductive nsteps : nat -> config -> config -> Prop :=
  | nsteps_O c : nsteps 0 c c
  | nsteps_S n c1 c2 c3 : nsteps n c1 c2 -> step w gc c2 c3 -> nsteps (S n) c1 c3.

End Counted.

(** The files a log shows created, and the calls of [Close] it shows. *)
Definition is_create (x : fs_op * option error) : bool :=
  match x with
  | (Create _, None) => true
  | _ => false
  end.

Definition is_close (x : fs_op * option error) : bool :=
  match x with
  | (Close _, _) => true
  | _ => false
  end.

Definition created (log : fs_log) : nat := length (filter (fun x => is_create x = true) log).
Definition close_calls (log : fs_log) : nat := length (filter (fun x => is_close x = true) log).

(** The calls [WriteLicensesToFile] makes for one license when all of
    them succeed. *)
Definition license_calls (fs : files) (cpath : string) (r : Repository) (dec : string)
  : fs_log :=
  let name := filepath_Join3 fs cpath "licenses"
                (Author r +:+ "-" +:+ Project r +:+ "-license.MD") in
  [(Create name, None); (Write name dec, None); (Sync name, None); (Close name, None)].

(** The calls for a dependency: none when it has no license text. *)
Definition license_log (fs : files) (cpath : string) (r : Repository) : fs_log :=
  if String.eqb (Text r) "" then []
  else match base64_DecodeString fs (Text r) with
       | Ok dec => license_calls fs cpath r dec
       | Err _ => []
       end.

Definition has_text (r : Repository) : bool := negb (String.eqb (Text r) "").

(** A file system on which every call succeeds, and one on which every
    [Write] fails; base64 decoding of the text ["TUlU"] only. *)
Definition decode_MIT (t : string) : result string :=
  if String.eqb t "TUlU" then Ok "MIT" else Err (ErrOther "illegal base64 data").

Definition fs_fine : files := {|
  fs_result := fun _ _ => None;
  os_IsExist := fun _ => false;
  filepath_Join3 := fun a b c => a +:+ "/" +:+ b +:+ "/" +:+ c;
  base64_DecodeString := decode_MIT
|}.

Definition fs_full : files := {|
  fs_result := fun _ op => match op with
                           | Write _ _ => Some (ErrOther "no space left on device")
                           | _ => None
                           end;
  os_IsExist := fun _ => false;
  filepath_Join3 := fun a b c => a +:+ "/" +:+ b +:+ "/" +:+ c;
  base64_DecodeString := decode_MIT
|}.

(** A GitHub repository with its license text, as the [github.com] case of
    [GetLicense] leaves it. *)
Definition licensed_repo : Repository :=
  mkRepository "github.com/pkg/errors" "MIT" "https://github.com/pkg/errors"
    "github.com" "pkg" "errors" "TUlU" "MIT" "v0.9.1".

Definition licensed_state : state := mkState [licensed_repo] ∅ [].

(** A world whose license API answers with the [mit] key, and one whose
    writer fails once the header and one record are written. *)
Definition mit_world : world := {|
  Getenv := fun _ => "token";
  filepath_Join := fun a b => a +:+ "/" +:+ b;
  os_ReadFile := fun _ => Ok "require example.com/m v1.0.0";
  modfile_Parse := fun _ => Ok [mkRequire (mkMod "example.com/m" "v1.0.0") false];
  gh_License := fun _ _ _ => Ok (mkRL (Some (mkGhLicense (Some "mit"))) (Some "TUlU"));
  colly_Visit := fun _ => mkPage ["Version: v1.0.0"] ["MIT"] ["example.com/m"] None;
  csv_Write := fun _ _ => None;
  csv_Error := fun _ => None;
  json_Encode := fun _ => None
|}.


(** ** Properties of the resolver *)

Lemma first_version_app seen ms name :
  first_version (seen ++ ms) name =
  match first_version seen name with
  | Some v => Some v
  | None => first_version ms name
  end.
Proof.
  induction seen as [|m seen IH]; simpl; [done|].
  destruct (String.eqb (Path m) name); [done | apply IH].
Qed.

Lemma getOtherRepo_hit m st p :
  cache st !! Path m = Some p -> getOtherRepo m st = (p, st).
Proof. intros Hc. unfold getOtherRepo. by rewrite Hc. Qed.

Lemma getOtherRepo_miss m st :
  cache st !! Path m = None ->
  getOtherRepo m st =
  (length (heap st),
   mkState (heap st ++ [fallback_repo (Path m) (ModVersion m)])
           (<[Path m := length (heap st)]> (cache st)) (trace st)).
Proof. intros Hc. unfold getOtherRepo. by rewrite Hc. Qed.

(** After a resolution the path is cached under the returned pointer. *)
Lemma getOtherRepo_cached m st :
  cache (getOtherRepo m st).2 !! Path m = Some (getOtherRepo m st).1.
Proof.
  destruct (cache st !! Path m) as [p|] eqn:Hc.
  - by rewrite (getOtherRepo_hit _ _ _ Hc).
  - rewrite (getOtherRepo_miss _ _ Hc). simpl. apply lookup_insert_eq.
Qed.

(** A resolution never changes what a cached path points to. *)
Lemma getOtherRepo_cache_mono m st name p :
  cache st !! name = Some p -> cache (getOtherRepo m st).2 !! name = Some p.
Proof.
  intros Hn. destruct (cache st !! Path m) as [q|] eqn:Hc.
  - by rewrite (getOtherRepo_hit _ _ _ Hc).
  - rewrite (getOtherRepo_miss _ _ Hc). simpl.
    rewrite lookup_insert_ne; [done | congruence].
Qed.

Lemma resolve_all_cache_mono ms st name p :
  cache st !! name = Some p -> cache (resolve_all ms st).2 !! name = Some p.
Proof.
  revert st. induction ms as [|m ms IH]; intros st Hn; simpl; [done|].
  unfold getRepository.
  destruct (getOtherRepo m st) as [q st1] eqn:E1.
  specialize (IH st1). destruct (resolve_all ms st1) as [ps st2] eqn:E2. simpl in *.
  apply IH. pose proof (getOtherRepo_cache_mono m st name p Hn) as Hm.
  by rewrite E1 in Hm.
Qed.

(** The heap only grows: a resolution keeps every record in place. *)
Lemma getOtherRepo_heap_mono m st p r :
  heap st !! p = Some r -> heap (getOtherRepo m st).2 !! p = Some r.
Proof.
  intros Hp. unfold getOtherRepo. destruct (cache st !! Path m); simpl; [done|].
  by apply lookup_app_l_Some.
Qed.

Lemma resolve_all_heap_mono ms st p r :
  heap st !! p = Some r -> heap (resolve_all ms st).2 !! p = Some r.
Proof.
  revert st. induction ms as [|m ms IH]; intros st Hp; simpl; [done|].
  unfold getRepository.
  destruct (getOtherRepo m st) as [q st1] eqn:E1.
  specialize (IH st1). destruct (resolve_all ms st1) as [ps st2] eqn:E2. simpl in *.
  apply IH. pose proof (getOtherRepo_heap_mono m st p r Hp) as Hm.
  by rewrite E1 in Hm.
Qed.

Lemma cache_resolved_init : cache_resolved [] init_state.
Proof. intros name. simpl. by rewrite lookup_empty. Qed.

Lemma string_eqb_false (a b : string) : a <> b -> String.eqb a b = false.
Proof. intros Hne. by apply String.eqb_neq. Qed.

(** One resolution keeps the cache invariant and returns a pointer to the
    record of the path's first resolution. *)
Lemma getOtherRepo_resolved seen m st :
  cache_resolved seen st ->
  cache_resolved (seen ++ [m]) (getOtherRepo m st).2
  /\ exists v, first_version (seen ++ [m]) (Path m) = Some v
               /\ heap (getOtherRepo m st).2 !! (getOtherRepo m st).1
                  = Some (fallback_repo (Path m) v).
Proof.
  intros Hinv. destruct (cache st !! Path m) as [p|] eqn:Hc.
  - rewrite (getOtherRepo_hit _ _ _ Hc). simpl. split.
    + intros name. specialize (Hinv name). rewrite first_version_app.
      destruct (cache st !! name) as [q|] eqn:Hq.
      * destruct Hinv as (v & Hv & Hh). exists v. by rewrite Hv.
      * rewrite Hinv. simpl. rewrite string_eqb_false; [done | congruence].
    + specialize (Hinv (Path m)). rewrite Hc in Hinv.
      destruct Hinv as (v & Hv & Hh). exists v. rewrite first_version_app, Hv. done.
  - rewrite (getOtherRepo_miss _ _ Hc). simpl.
    pose proof (Hinv (Path m)) as Hm. rewrite Hc in Hm. split.
    + intros name. rewrite first_version_app. simpl.
      destruct (decide (Path m = name)) as [<-|Hne].
      * rewrite lookup_insert_eq, Hm, String.eqb_refl. eexists; split; [done|].
        by rewrite list_lookup_middle.
      * rewrite lookup_insert_ne by done. specialize (Hinv name).
        destruct (cache st !! name) as [q|] eqn:Hq.
        -- destruct Hinv as (v & Hv & Hh). exists v. rewrite Hv. split; [done|].
           by apply lookup_app_l_Some.
        -- rewrite Hinv. by rewrite string_eqb_false.
    + exists (ModVersion m). rewrite first_version_app, Hm. simpl.
      rewrite String.eqb_refl. split; [done|]. by rewrite list_lookup_middle.
Qed.

(** The resolution pass of [ListRepositories] keeps the cache invariant,
    and every returned pointer leads to the record of its path. *)
Lemma resolve_all_resolved ms : forall seen st,
  cache_resolved seen st ->
  cache_resolved (seen ++ ms) (resolve_all ms st).2
  /\ Forall2 (fun m p => exists v,
                first_version (seen ++ ms) (Path m) = Some v
                /\ heap (resolve_all ms st).2 !! p = Some (fallback_repo (Path m) v))
             ms (resolve_all ms st).1.
Proof.
  induction ms as [|m ms IH]; intros seen st Hinv; simpl.
  - rewrite app_nil_r. split; [done | constructor].
  - unfold getRepository.
    destruct (getOtherRepo_resolved seen m st Hinv) as (Hinv1 & v & Hv & Hh).
    destruct (getOtherRepo m st) as [p st1] eqn:E1. simpl in *.
    destruct (IH (seen ++ [m])%list st1 Hinv1) as (Hinv2 & Hall).
    pose proof (resolve_all_heap_mono ms st1 p _ Hh) as Hh2.
    destruct (resolve_all ms st1) as [ps st2] eqn:E2. simpl in *.
    rewrite <- app_assoc in Hinv2, Hall. simpl in Hinv2, Hall.
    split; [done|]. constructor; [|done].
    exists v. split; [|done].
    change (seen ++ m :: ms)%list with (seen ++ [m] ++ ms)%list.
    rewrite app_assoc, first_version_app, Hv. done.
Qed.

Lemma first_version_elem ms name v :
  first_version ms name = Some v ->
  exists m, m ∈ ms /\ Path m = name /\ ModVersion m = v.
Proof.
  induction ms as [|m ms IH]; simpl; [done|].
  destruct (String.eqb (Path m) name) eqn:E.
  - intros [= <-]. apply String.eqb_eq in E. exists m. split; [left | done].
  - intros Hv. destruct (IH Hv) as (m' & Hin & Hp & Hm).
    exists m'. split; [by right | done].
Qed.

(** A path that occurs once in the manifest keeps its own version. *)
Lemma first_version_unique ms i m :
  NoDup (map Path ms) -> ms !! i = Some m ->
  first_version ms (Path m) = Some (ModVersion m).
Proof.
  revert i. induction ms as [|m0 ms IH]; intros i Hnd Hi; [done|].
  simpl in Hnd. apply NoDup_cons in Hnd as [Hnin Hnd]. simpl.
  destruct i as [|i]; simpl in Hi.
  - injection Hi as ->. by rewrite String.eqb_refl.
  - rewrite string_eqb_false; [by eapply IH|].
    intros Heq. apply Hnin. rewrite Heq. apply list_elem_of_fmap.
    exists m. split; [done|]. by eapply list_elem_of_lookup_2.
Qed.

(** C3. Starting from the empty cache, the resolution pass over any list
    of modules returns, for every module, a pointer to a [Repository] whose
    [Host] is ["pkg.go.dev"], whose [URL] is ["https://pkg.go.dev/"]
    followed by the path, whose [Name] is the path, whose [Version] is the
    version the manifest gives (at its first entry for that path), and whose
    [Author], [Project] and the enrichment fields are empty. *)
Theorem resolution_falls_back_to_pkg_go_dev (ms : list module_Version) :
  Forall2 (fun m p => exists v,
             first_version ms (Path m) = Some v
             /\ heap (resolve_all ms init_state).2 !! p
                = Some (mkRepository (Path m) "" ("https://pkg.go.dev/" +:+ Path m)
                          "pkg.go.dev" "" "" "" "" v))
          ms (resolve_all ms init_state).1.
Proof.
  destruct (resolve_all_resolved ms [] init_state cache_resolved_init) as [_ Hall].
  exact Hall.
Qed.

(** C4. Once a path has been resolved, any later resolution of the same
    path, whatever its version and whatever was resolved or written to
    the heap in between, returns the very same pointer and leaves cache,
    heap and trace as they are: no record is built. *)
Theorem getRepository_memoized (st : state) (m : module_Version)
    (ms : list module_Version) (v' : string) (h' : list Repository) :
  let st1 := (getRepository m st).2 in
  let st2 := (resolve_all ms st1).2 in
  getRepository (mkMod (Path m) v') st2 = ((getRepository m st).1, st2)
  /\ getRepository (mkMod (Path m) v') (mkState h' (cache st2) (trace st2))
     = ((getRepository m st).1, mkState h' (cache st2) (trace st2)).
Proof.
  intros st1 st2. unfold getRepository in *.
  assert (cache st2 !! Path m = Some (getOtherRepo m st).1) as Hc.
  { apply resolve_all_cache_mono, getOtherRepo_cached. }
  split; by apply getOtherRepo_hit.
Qed.

(** *** The known-host and redirector rules *)

Lemma string_app_cons (a : ascii) (s t : string) : String a s +:+ t = String a (s +:+ t).
Proof. reflexivity. Qed.

Lemma string_app_nil_r (s : string) : s +:+ "" = s.
Proof.
  induction s as [|a s IH]; [done|]. by rewrite string_app_cons, IH.
Qed.

Lemma string_app_assoc (a b c : string) : (a +:+ b) +:+ c = a +:+ (b +:+ c).
Proof.
  induction a as [|x a IH]; [done|]. by rewrite !string_app_cons, IH.
Qed.



(** C1. Resolving [github.com/pkg/errors] at [v0.9.1] in a fresh process
    returns the [pkg.go.dev] record, with no [Author] and no [Project]:
    [getRepository] returns on its first statement.  The known-host rule
    written after that statement would build the record of the
    specification. *)
Theorem getRepository_known_host_unreached :
  let m := mkMod "github.com/pkg/errors" "v0.9.1" in
  heap (getRepository m init_state).2 !! (getRepository m init_state).1
  = Some (mkRepository "github.com/pkg/errors" "" "https://pkg.go.dev/github.com/pkg/errors"
            "pkg.go.dev" "" "" "" "" "v0.9.1")
  /\ heap (getRepository_unreachable m init_state).2
       !! (getRepository_unreachable m init_state).1
     = Some (mkRepository "github.com/pkg/errors" "" "https://github.com/pkg/errors"
               "github.com" "pkg" "errors" "" "" "v0.9.1").
Proof. split; vm_compute; reflexivity. Qed.




(** ** Properties of the enrichment client *)

Section EnrichmentFacts.
Context `{GoLib}.
Variable w : world.

Lemma same_identity_refl r : same_identity r r.
Proof. by repeat split. Qed.

Lemma same_identity_trans r1 r2 r3 :
  same_identity r1 r2 -> same_identity r2 r3 -> same_identity r1 r3.
Proof.
  unfold same_identity. intros (?&?&?&?&?&?) (?&?&?&?&?&?).
  repeat split; congruence.
Qed.

Lemma onVersion_frame text r r' :
  onVersion text r = Done r' ->
  same_identity r r' /\ Shortname r' = Shortname r /\ Project r' = Project r.
Proof.
  unfold onVersion. destruct (GoStrings.slice_from 9 text); [|done].
  destruct (negb _); intros [= <-]; by repeat split.
Qed.

Lemma run_onVersion_frame texts : forall r r',
  run_onVersion texts r = Done r' ->
  same_identity r r' /\ Shortname r' = Shortname r /\ Project r' = Project r.
Proof.
  induction texts as [|t texts IH]; intros r r'; simpl.
  - intros [= <-]. by repeat split.
  - destruct (onVersion t r) as [r1|] eqn:E1; [|done]. simpl. intros E2.
    destruct (onVersion_frame _ _ _ E1) as (I1 & S1 & P1).
    destruct (IH _ _ E2) as (I2 & S2 & P2).
    split; [by eapply same_identity_trans|]. split; congruence.
Qed.

Lemma onLicense_fold_frame texts : forall r,
  let r' := foldl (fun acc t => onLicense t acc) r texts in
  same_identity r r' /\ Version r' = Version r /\ Project r' = Project r.
Proof.
  induction texts as [|t texts IH]; intros r; simpl.
  - by repeat split.
  - destruct (IH (onLicense t r)) as (I & V & P).
    split; [|by split]. eapply same_identity_trans; [|exact I]. by repeat split.
Qed.

Lemma onRepo_fold_frame texts : forall r,
  let r' := foldl (fun acc t => onRepo t acc) r texts in
  same_identity r r' /\ Version r' = Version r /\ Shortname r' = Shortname r.
Proof.
  induction texts as [|t texts IH]; intros r; simpl.
  - by repeat split.
  - destruct (IH (onRepo t r)) as (I & V & P).
    split; [|by split]. eapply same_identity_trans; [|exact I]. by repeat split.
Qed.

(** The callbacks leave [Name], [URL], [Host], [Author], [Text] and
    [License] alone, and [Version] is what the version callback made it. *)
Lemma run_callbacks_frame pg r r' :
  run_callbacks pg r = Done r' ->
  same_identity r r'
  /\ exists r1, run_onVersion (version_spans pg) r = Done r1 /\ Version r' = Version r1.
Proof.
  unfold run_callbacks.
  destruct (run_onVersion (version_spans pg) r) as [r1|] eqn:E1; [|done]. simpl.
  intros [= <-].
  destruct (run_onVersion_frame _ _ _ E1) as (I1 & _).
  destruct (onLicense_fold_frame (license_spans pg) r1) as (I2 & V2 & _).
  destruct (onRepo_fold_frame (repo_blocks pg)
              (foldl (fun acc t => onLicense t acc) r1 (license_spans pg))) as (I3 & V3 & _).
  split.
  - eapply same_identity_trans; [exact I1|]. by eapply same_identity_trans.
  - exists r1. split; [done | congruence].
Qed.

(** The version callback only ever appends to [Version]. *)
Lemma run_onVersion_extends texts : forall r r',
  run_onVersion texts r = Done r' -> exists suffix, Version r' = Version r +:+ suffix.
Proof.
  induction texts as [|t texts IH]; intros r r'; simpl.
  - intros [= <-]. exists "". by rewrite string_app_nil_r.
  - destruct (onVersion t r) as [r1|] eqn:E1; [|done]. simpl. intros E2.
    destruct (IH _ _ E2) as [s2 Hs2]. rewrite Hs2.
    unfold onVersion in E1. destruct (GoStrings.slice_from 9 t); [|done].
    destruct (negb _); injection E1 as <-; simpl.
    + eexists. by rewrite string_app_assoc.
    + by exists s2.
Qed.

(** The version callback goes through when every version header has the
    nine bytes it slices off. *)
Lemma run_onVersion_total texts : forall r,
  Forall (fun t => 9 <= String.length t) texts ->
  exists r', run_onVersion texts r = Done r'.
Proof.
  assert (Hslice : forall n t, n <= String.length t ->
                               exists rest, GoStrings.slice_from n t = Some rest).
  { induction n as [|n IHn]; intros t Hn; [by exists t|].
    destruct t as [|a t]; simpl in *; [lia|]. apply IHn. lia. }
  induction texts as [|t texts IH]; intros r Hall; simpl.
  - by exists r.
  - apply Forall_cons in Hall as [Ht Hall].
    destruct (Hslice 9 t Ht) as [rest Hrest].
    unfold onVersion. rewrite Hrest.
    destruct (negb _); simpl; by apply IH.
Qed.

Lemma GetLicense_on_github gc r :
  Host r = "github.com" -> GetLicense_on w gc r = GetLicense_github w gc r.
Proof. intros Hh. unfold GetLicense_on. by rewrite bool_decide_eq_true_2. Qed.

Lemma GetLicense_on_pkggodev gc r :
  Host r = "pkg.go.dev" -> GetLicense_on w gc r = GetLicense_pkggodev w r.
Proof.
  intros Hh. unfold GetLicense_on.
  rewrite bool_decide_eq_false_2 by (rewrite Hh; discriminate).
  by rewrite bool_decide_eq_true_2.
Qed.

(** On the fallback path a call that comes back returns [nil] and has
    written neither [License] nor [Text]. *)
Lemma GetLicense_pkggodev_frame gc r r' err evs :
  Host r = "pkg.go.dev" ->
  GetLicense_on w gc r = Done (r', err, evs) ->
  err = None /\ same_identity r r'.
Proof.
  intros Hh. rewrite (GetLicense_on_pkggodev _ _ Hh). unfold GetLicense_pkggodev.
  destruct (run_callbacks (colly_Visit w (URL r)) r) as [r1|] eqn:E; [|done].
  simpl. intros [= <- <- <-]. split; [done|].
  by destruct (run_callbacks_frame _ _ _ E).
Qed.

(** On the fallback path the call comes back when the page's version
    headers are long enough. *)
Lemma GetLicense_pkggodev_total gc r :
  Host r = "pkg.go.dev" ->
  Forall (fun t => 9 <= String.length t) (version_spans (colly_Visit w (URL r))) ->
  exists r' evs, GetLicense_on w gc r = Done (r', None, evs).
Proof.
  intros Hh Hall. rewrite (GetLicense_on_pkggodev _ _ Hh).
  unfold GetLicense_pkggodev, run_callbacks.
  destruct (run_onVersion_total _ r Hall) as [r1 ->]. simpl. eauto.
Qed.

End EnrichmentFacts.

(** ** Properties of the orchestration: isolation of failures *)

Section Isolation.
Context `{GoLib}.
Variable w : world.
Variable gc : gitClient.

Lemma agree_refl o : agree o o.
Proof. by destruct o. Qed.

(** A worker's effect on heap and cache does not depend on the trace. *)
Lemma worker_agree r st1 st2 :
  heap st1 = heap st2 -> cache st1 = cache st2 ->
  agree (worker w gc r st1) (worker w gc r st2).
Proof.
  intros Hh Hc. unfold worker, GetLicense. rewrite Hh.
  destruct (heap st2 !! r) as [rec|]; [|done].
  destruct (GetLicense_on w gc rec) as [[[rec' err] evs]|]; [|done].
  simpl. rewrite Hc. by destruct err.
Qed.

Lemma enrich_agree repos : forall st1 st2,
  heap st1 = heap st2 -> cache st1 = cache st2 ->
  agree (enrich w gc repos st1) (enrich w gc repos st2).
Proof.
  induction repos as [|r repos IH]; intros st1 st2 Hh Hc; simpl; [done|].
  rewrite Hh. destruct (heap st2 !! r) as [rec|]; [|done].
  pose proof (worker_agree r (emit (EvLogFetching (URL rec)) st1)
                (emit (EvLogFetching (URL rec)) st2) Hh Hc) as Hw.
  destruct (worker w gc r (emit (EvLogFetching (URL rec)) st1)) as [a|];
    destruct (worker w gc r (emit (EvLogFetching (URL rec)) st2)) as [b|];
    simpl in *; try done.
  destruct Hw. by apply IH.
Qed.

Lemma enrich_app a b st :
  enrich w gc (a ++ b) st = (st1 ← enrich w gc a st; enrich w gc b st1).
Proof.
  revert st. induction a as [|r a IH]; intros st; simpl; [done|].
  destruct (heap st !! r) as [rec|]; [|done].
  destruct (worker w gc r (emit (EvLogFetching (URL rec)) st)) as [st1|]; [|done].
  simpl. apply IH.
Qed.

(** A worker writes to its own record only. *)
Lemma worker_other r p st st' :
  worker w gc r st = Done st' -> p <> r ->
  heap st' !! p = heap st !! p.
Proof.
  unfold worker, GetLicense. destruct (heap st !! r) as [rec|]; [|done].
  destruct (GetLicense_on w gc rec) as [[[rec' err] evs]|]; [|done].
  simpl. intros [= <-] Hne.
  destruct err; simpl; by rewrite list_lookup_insert_ne.
Qed.

Section FailingRepository.
Variable r : Repository.
Variable e : error.
Hypothesis Hhost : Host r = "github.com".
Hypothesis Hfail : gh_License w (gh_token gc) (Author r) (Project r) = Err e.

Lemma GetLicense_on_api_failure :
  GetLicense_on w gc r = Done (r, Some e, [EvGithubLicense (Author r) (Project r)]).
Proof.
  rewrite (GetLicense_on_github _ _ _ Hhost). unfold GetLicense_github.
  by rewrite Hfail.
Qed.

Lemma worker_api_failure p st :
  heap st !! p = Some r ->
  worker w gc p st
  = Done (mkState (heap st) (cache st)
            (trace st ++ [EvGithubLicense (Author r) (Project r); EvLogError e])).
Proof.
  intros Hp. unfold worker, GetLicense. rewrite Hp, GetLicense_on_api_failure.
  unfold mbind, outcome_bind. rewrite (list_insert_id _ _ _ Hp).
  unfold emit. simpl. by rewrite <- app_assoc.
Qed.

(** Whatever else is enriched, the failing record stays as it is. *)
Lemma enrich_keeps_failing p repos : forall st st',
  heap st !! p = Some r -> enrich w gc repos st = Done st' ->
  heap st' !! p = Some r.
Proof.
  induction repos as [|q repos IH]; intros st st' Hp; simpl.
  - by intros [= <-].
  - destruct (heap st !! q) as [rec|] eqn:Hq; [|done].
    destruct (worker w gc q (emit (EvLogFetching (URL rec)) st)) as [st1|] eqn:Hw; [|done].
    simpl. apply IH.
    destruct (decide (p = q)) as [<-|Hne].
    + rewrite worker_api_failure in Hw by done. by injection Hw as <-.
    + by rewrite (worker_other _ _ _ _ Hw Hne).
Qed.

Lemma enrich_without_failing p ps1 ps2 st :
  heap st !! p = Some r ->
  agree (enrich w gc (ps1 ++ p :: ps2) st) (enrich w gc (ps1 ++ ps2) st).
Proof.
  intros Hp. rewrite !enrich_app.
  destruct (enrich w gc ps1 st) as [st1|] eqn:E1; simpl; [|done].
  pose proof (enrich_keeps_failing p ps1 st st1 Hp E1) as Hp1.
  rewrite Hp1, worker_api_failure by done. simpl.
  by apply enrich_agree.
Qed.

End FailingRepository.

(** [ParseDependencies] returns no other error than the missing key and
    the manifest's: what a worker gets from [GetLicense] is never
    returned. *)
Lemma ParseDependencies_errors c includeIndirect thanks st e c' st' :
  ParseDependencies w c includeIndirect thanks st = Done (Some e, c', st') ->
  (e = ErrNoAPIKey /\ st' = st)
  \/ (ListRepositories w (path c) includeIndirect st).1 = Err e.
Proof.
  unfold ParseDependencies.
  destruct (thanks && String.eqb (Getenv w "GITHUB_API_KEY") "").
  - intros [= <- <- <-]. by left.
  - destruct (ListRepositories w (path c) includeIndirect st) as [[repos|err] st1].
    + destruct (enrich w _ repos _); simpl; [|done]. done.
    + intros [= <- <- <-]. by right.
Qed.

End Isolation.

(** C6. When the license API fails for a repository on [github.com],
    [GetLicense] returns that error and leaves the record as it was, so
    [License] and [Text] stay empty; the worker logs the error and comes
    back with heap and cache untouched; and a dispatch loop over any list
    that contains the repository ends as the loop over the list without it:
    it completes exactly when that one does, with the same records.
    [ParseDependencies] itself returns no error but the missing key's and
    the manifest's. *)
Theorem api_failure_is_isolated `{GoLib} (w : world) (gc : gitClient)
    (r : Repository) (e : error) :
  Host r = "github.com" ->
  gh_License w (gh_token gc) (Author r) (Project r) = Err e ->
  GetLicense_on w gc r = Done (r, Some e, [EvGithubLicense (Author r) (Project r)])
  /\ (forall p st, heap st !! p = Some r ->
        worker w gc p st
        = Done (mkState (heap st) (cache st)
                  (trace st ++ [EvGithubLicense (Author r) (Project r); EvLogError e])))
  /\ (forall p ps1 ps2 st, heap st !! p = Some r ->
        agree (enrich w gc (ps1 ++ p :: ps2) st) (enrich w gc (ps1 ++ ps2) st))
  /\ (forall c includeIndirect thanks st e' c' st',
        ParseDependencies w c includeIndirect thanks st = Done (Some e', c', st') ->
        (e' = ErrNoAPIKey /\ st' = st)
        \/ (ListRepositories w (path c) includeIndirect st).1 = Err e').
Proof.
  intros Hhost Hfail. split; [|split; [|split]].
  - exact (GetLicense_on_api_failure w gc r e Hhost Hfail).
  - intros p st. exact (worker_api_failure w gc r e Hhost Hfail p st).
  - intros p ps1 ps2 st. exact (enrich_without_failing w gc r e Hhost Hfail p ps1 ps2 st).
  - intros c includeIndirect thanks st e' c' st'. apply ParseDependencies_errors.
Qed.

Lemma api_failure_is_isolated_witness :
  let r := mkRepository "github.com/pkg/errors" "" "https://github.com/pkg/errors"
             "github.com" "pkg" "errors" "" "" "v0.9.1" in
  let gc := newGitClient "" false in
  Host r = "github.com"
  /\ gh_License quiet_world (gh_token gc) (Author r) (Project r) = Err (ErrOther "404 Not Found")
  /\ @GetLicense_on ascii_lib quiet_world gc r
     = Done (r, Some (ErrOther "404 Not Found"), [EvGithubLicense "pkg" "errors"]).
Proof.
  intros r gc. split; [reflexivity|]. split; [reflexivity|].
  exact (proj1 (@api_failure_is_isolated ascii_lib quiet_world gc r
                  (ErrOther "404 Not Found") eq_refl eq_refl)).
Defined.

(** ** Properties of the fallback path *)

(** C9. On the fallback path the version callback compares the version
    it extracts from the header with [Version] under [EqualFold]: when they
    differ [Version] becomes ["<original> (!new:<discovered>)"], when they
    match the record is unchanged.  So a page with one version header
    leaves [Version] annotated or untouched, and on any page from which
    [GetLicense] comes back the original [Version] is still the beginning
    of the new one. *)
Theorem version_disagreement_is_annotated `{GoLib} (w : world) (gc : gitClient)
    (r : Repository) :
  Host r = "pkg.go.dev" ->
  (forall text rest r0,
     GoStrings.slice_from 9 text = Some rest ->
     let discovered := TrimSpace (default "" (GoStrings.Split rest "G" !! 0)) in
     onVersion text r0
     = Done (if EqualFold (Version r0) discovered then r0
             else set_Version (Version r0 +:+ " (!new:" +:+ discovered +:+ ")") r0))
  /\ (forall text rest,
        version_spans (colly_Visit w (URL r)) = [text] ->
        GoStrings.slice_from 9 text = Some rest ->
        let discovered := TrimSpace (default "" (GoStrings.Split rest "G" !! 0)) in
        exists r' evs,
          GetLicense_on w gc r = Done (r', None, evs)
          /\ Version r' = if EqualFold (Version r) discovered then Version r
                          else Version r +:+ " (!new:" +:+ discovered +:+ ")")
  /\ (forall r' err evs,
        GetLicense_on w gc r = Done (r', err, evs) ->
        exists suffix, Version r' = Version r +:+ suffix).
Proof.
  intros Hh.
  assert (Hcb : forall text rest r0,
     GoStrings.slice_from 9 text = Some rest ->
     onVersion text r0
     = Done (if EqualFold (Version r0) (TrimSpace (default "" (GoStrings.Split rest "G" !! 0)))
             then r0
             else set_Version (Version r0 +:+ " (!new:"
                               +:+ TrimSpace (default "" (GoStrings.Split rest "G" !! 0))
                               +:+ ")") r0)).
  { intros text rest r0 Hs. unfold onVersion. rewrite Hs. by destruct (EqualFold _ _). }
  split; [exact Hcb|]. split.
  - intros text rest Hpage Hs discovered.
    rewrite (GetLicense_on_pkggodev _ _ _ Hh). unfold GetLicense_pkggodev.
    destruct (run_callbacks (colly_Visit w (URL r)) r) as [r'|] eqn:E.
    + simpl. eexists r', _. split; [done|].
      destruct (run_callbacks_frame _ _ _ E) as (_ & r1 & E1 & ->).
      rewrite Hpage in E1. simpl in E1. rewrite (Hcb _ _ _ Hs) in E1. simpl in E1.
      injection E1 as <-. fold discovered. by destruct (EqualFold _ _).
    + unfold run_callbacks in E. rewrite Hpage in E. simpl in E.
      rewrite (Hcb _ _ _ Hs) in E. done.
  - intros r' err evs. rewrite (GetLicense_on_pkggodev _ _ _ Hh).
    unfold GetLicense_pkggodev.
    destruct (run_callbacks (colly_Visit w (URL r)) r) as [r1|] eqn:E; [|done].
    simpl. intros [= <- _ _].
    destruct (run_callbacks_frame _ _ _ E) as (_ & r2 & E2 & ->).
    by eapply run_onVersion_extends.
Qed.

Lemma version_disagreement_is_annotated_witness :
  let r := fallback_repo "example.com/m" "v1.0.0" in
  let w := page_world ["Version: v1.2.0 "] in
  Host r = "pkg.go.dev"
  /\ version_spans (colly_Visit w (URL r)) = ["Version: v1.2.0 "]
  /\ GoStrings.slice_from 9 "Version: v1.2.0 " = Some "v1.2.0 "
  /\ exists r' evs,
       @GetLicense_on ascii_lib w (newGitClient "" false) r = Done (r', None, evs)
       /\ Version r' = "v1.0.0 (!new:v1.2.0)".
Proof.
  intros r w. split; [reflexivity|]. split; [reflexivity|]. split; [reflexivity|].
  exact (proj1 (proj2 (@version_disagreement_is_annotated ascii_lib w
                         (newGitClient "" false) r eq_refl))
           "Version: v1.2.0 " "v1.2.0 " eq_refl eq_refl).
Defined.

(** A version header shorter than the nine bytes the callback slices off
    makes [GetLicense] panic. *)
Lemma GetLicense_short_version_header `{GoLib} (w : world) (gc : gitClient)
    (r : Repository) (text : string) (texts : list string) :
  Host r = "pkg.go.dev" ->
  version_spans (colly_Visit w (URL r)) = text :: texts ->
  String.length text < 9 ->
  GetLicense_on w gc r = Panic "slice bounds out of range".
Proof.
  intros Hh Hpage Hlen. rewrite (GetLicense_on_pkggodev _ _ _ Hh).
  unfold GetLicense_pkggodev, run_callbacks. rewrite Hpage. simpl.
  assert (GoStrings.slice_from 9 text = None) as Hs.
  { clear -Hlen. do 9 (destruct text as [|? text]; [done|]). simpl in Hlen. lia. }
  unfold onVersion. by rewrite Hs.
Qed.

(** C10. For a project whose only requirement has a page with an empty
    version header, [GetLicense] on the resolved repository does not
    return: it panics, and so does the run of [ParseDependencies].  When
    a call on the fallback path does come back, it returns [nil] and
    [License] and [Text] are as before ([GetLicense_pkggodev_frame]). *)
Theorem GetLicense_fallback_panics_on_empty_version_header :
  let w := page_world [""] in
  let r := fallback_repo "example.com/m" "v1.0.0" in
  @GetLicense_on ascii_lib w (newGitClient "" false) r = Panic "slice bounds out of range"
  /\ @ParseDependencies ascii_lib w (mkClient [] "." "table" "stdout") false false init_state
     = Panic "slice bounds out of range".
Proof. split; vm_compute; reflexivity. Qed.

(** ** Properties of the orchestrator's entry and of the renderer *)

(** C7. With the thanks option on and [GITHUB_API_KEY] unset or empty,
    [ParseDependencies] returns [ErrNoAPIKey] and leaves client and state
    as they were: the manifest is not read, nothing is resolved, no worker
    is dispatched and the trace has no new event, so no network call. *)
Theorem thanks_without_key_fails_fast `{GoLib} (w : world) (c : Client)
    (includeIndirect : bool) (st : state) :
  Getenv w "GITHUB_API_KEY" = "" ->
  ParseDependencies w c includeIndirect true st = Done (Some ErrNoAPIKey, c, st).
Proof. intros Hkey. unfold ParseDependencies. by rewrite Hkey. Qed.

Lemma thanks_without_key_fails_fast_witness :
  Getenv quiet_world "GITHUB_API_KEY" = ""
  /\ @ParseDependencies ascii_lib quiet_world csv_client true true init_state
     = Done (Some ErrNoAPIKey, csv_client, init_state).
Proof.
  split; [reflexivity|].
  exact (@thanks_without_key_fails_fast ascii_lib quiet_world csv_client true init_state eq_refl).
Defined.

(** With a writer that accepts every record, the [csv] loop appends one
    record of three fields per dependency, in the order of the list. *)
Lemma csv_rows_no_error (w : world) (ds : list Repository) : forall written,
  (forall ws rec, csv_Write w ws rec = None) ->
  csv_rows w ds written
  = ((written ++ map (fun d => [Project d; URL d; License d]) ds)%list,
     csv_Error w (written ++ map (fun d => [Project d; URL d; License d]) ds)%list).
Proof.
  induction ds as [|d ds IH]; intros written Hw; simpl.
  - by rewrite app_nil_r.
  - rewrite Hw, IH by done. by rewrite <- app_assoc.
Qed.

(** C8. The CSV rendering of two enriched dependencies writes the header
    of four columns and then, in list order, one record of three fields
    per dependency: [Project], [URL] and [License].  No record carries the
    version, and the first field is [Project], not the dependency's
    [Name]. *)
Theorem Print_csv_rows_have_no_version :
  @Print ascii_lib quiet_world csv_client report_state
  = Done (Csv [ ["Dependency"; "RepoURL"; "License"; "Version"];
                ["github.com/go-yaml/yaml"; "https://pkg.go.dev/gopkg.in/yaml.v2"; ""];
                ["github.com/pkg/errors"; "https://pkg.go.dev/github.com/pkg/errors"; ""] ],
          None).
Proof. vm_compute. reflexivity. Qed.

(** The table rendering of the same dependencies has four fields per row,
    the version among them, under the same header. *)
Lemma Print_table_rows_have_version :
  @Print ascii_lib quiet_world (mkClient [0; 1] "." "table" "stdout") report_state
  = Done (Table ["Dependency"; "RepoURL"; "License"; "Version"]
            [ ["gopkg.in/yaml.v2"; "https://pkg.go.dev/gopkg.in/yaml.v2"; "Apache-2.0"; "v2.4.0"];
              ["github.com/pkg/errors"; "https://pkg.go.dev/github.com/pkg/errors";
               "BSD-2-Clause"; "v0.9.1"] ],
          Some (ErrOther "invalid output provided (stdout) - allowed ones are [stdout, json, csv]")).
Proof. vm_compute. reflexivity. Qed.

(** ** Properties of the goroutines: the bound on concurrent enrichment *)

Section Bound.
Context `{GoLib}.
Variable w : world.
Variable gc : gitClient.

Lemma count_phase_cons q x ws :
  count_phase q (x :: ws) = (if decide (x.2 = q) then 1 else 0) + count_phase q ws.
Proof. unfold count_phase. rewrite filter_cons. by case_decide. Qed.

Lemma count_phase_app q ws1 ws2 :
  count_phase q (ws1 ++ ws2) = count_phase q ws1 + count_phase q ws2.
Proof. unfold count_phase. by rewrite filter_app, length_app. Qed.

(** Moving worker [i] from phase [ph] to phase [ph2] moves one unit of
    the count. *)
Lemma count_phase_insert q r ph ph2 : forall ws i,
  ws !! i = Some (r, ph) ->
  count_phase q (<[i := (r, ph2)]> ws) + (if decide (ph = q) then 1 else 0)
  = count_phase q ws + (if decide (ph2 = q) then 1 else 0).
Proof.
  induction ws as [|x ws IH]; intros i Hi; [done|].
  destruct i as [|i]; simpl in Hi.
  - injection Hi as ->. simpl. rewrite !count_phase_cons. simpl. lia.
  - simpl. rewrite !count_phase_cons. specialize (IH i Hi). lia.
Qed.

Lemma sem_invariant_start repos st : sem_invariant (dispatch_start repos st).
Proof. simpl. unfold sem_capacity. split; [done | lia]. Qed.

Lemma sem_invariant_step c c' :
  sem_invariant c -> step w gc c c' -> sem_invariant c'.
Proof.
  intros Hinv Hstep. destruct Hstep; simpl in *; try done;
    unfold sem_capacity in *;
    try match goal with
        | Hi : ?ws !! ?i = Some (?r, ?ph) |- context [<[?i := (?r, ?ph2)]> ?ws] =>
            pose proof (count_phase_insert Spawned r ph ph2 ws i Hi);
            pose proof (count_phase_insert InFlight r ph ph2 ws i Hi);
            pose proof (count_phase_insert Returned r ph ph2 ws i Hi);
            repeat case_decide; try congruence
        end;
    rewrite ?count_phase_app in *; simpl in *;
    try (unfold count_phase in *; simpl in *; lia).
Qed.

Lemma sem_invariant_steps c c' :
  sem_invariant c -> steps w gc c c' -> sem_invariant c'.
Proof.
  intros Hinv Hsteps. induction Hsteps as [|c1 c2 c3 _ IH Hstep]; [done|].
  eapply sem_invariant_step; [by apply IH | done].
Qed.

Lemma steps_trans c1 c2 c3 :
  steps w gc c1 c2 -> steps w gc c2 c3 -> steps w gc c1 c3.
Proof.
  intros H12 H23. induction H23 as [|c2 c3 c4 _ IH Hstep]; [done|].
  eapply steps_step; [by apply IH | done].
Qed.

Lemma steps_one c1 c2 : step w gc c1 c2 -> steps w gc c1 c2.
Proof. intros Hs. eapply steps_step; [apply steps_refl | done]. Qed.

(** With a free slot, the main goroutine dispatches the next repository
    and its worker enters [GetLicense]. *)
Lemma dispatch_one r rest k g ws st rec :
  heap st !! r = Some rec -> k < sem_capacity ->
  steps w gc (Live (mkP (MLoop (r :: rest)) k g ws st))
    (Live (mkP (MLoop rest) (S k) (S g) (ws ++ [(r, InFlight)])
             (emit (EvLogFetching (URL rec)) st))).
Proof.
  intros Hr Hk.
  eapply steps_step; [eapply steps_step; [eapply steps_step; [apply steps_one|]|]|].
  - by apply step_iter.
  - by apply step_acquire.
  - apply step_go.
  - replace (ws ++ [(r, InFlight)]) with (<[length ws := (r, InFlight)]> (ws ++ [(r, Spawned)])).
    + apply step_start. by rewrite list_lookup_middle.
    + rewrite insert_app_r_alt by lia. by rewrite Nat.sub_diag.
Qed.

(** A worker that is in flight and whose call comes back runs to its
    end, giving its slot back. *)
Lemma complete_one i r m k g ws st st' :
  ws !! i = Some (r, InFlight) -> worker w gc r st = Done st' ->
  steps w gc (Live (mkP m (S k) (S g) ws st))
    (Live (mkP m k g (<[i := (r, Finished)]> ws) st')).
Proof.
  intros Hi Hw. pose proof (lookup_lt_Some _ _ _ Hi) as Hlt.
  eapply steps_step; [eapply steps_step; [apply steps_one|]|].
  - by eapply step_return.
  - apply (step_release _ _ i r). by rewrite list_lookup_insert_eq.
  - replace (<[i := (r, Finished)]> ws)
      with (<[i := (r, Finished)]> (<[i := (r, Released)]> (<[i := (r, Returned)]> ws))).
    + apply (step_done _ _ i r). rewrite list_lookup_insert_eq; [done|].
      by rewrite length_insert.
    + by rewrite !list_insert_insert_eq.
Qed.

(** The schedule of [enrich], in which each worker finishes before the
    next repository is dispatched, is one of the runs. *)
Lemma enrich_is_a_run repos : forall st st' ws,
  enrich w gc repos st = Done st' ->
  steps w gc (Live (mkP (MLoop repos) 0 0 ws st))
    (Live (mkP MReturned 0 0 (ws ++ map (fun r => (r, Finished)) repos) st')).
Proof.
  induction repos as [|r repos IH]; intros st st' ws; simpl.
  - intros [= <-]. rewrite app_nil_r.
    eapply steps_step; [apply steps_one, step_loop_end | apply step_wait].
  - destruct (heap st !! r) as [rec|] eqn:Hr; [|done].
    destruct (worker w gc r (emit (EvLogFetching (URL rec)) st)) as [st1|] eqn:Hw; [|done].
    simpl. intros He.
    eapply steps_trans; [apply (dispatch_one r repos 0 0 ws st rec Hr); unfold sem_capacity; lia|].
    eapply steps_trans.
    + apply (complete_one (length ws) r _ 0 0 _ _ st1); [|done].
      by rewrite list_lookup_middle.
    + rewrite insert_app_r_alt by lia. rewrite Nat.sub_diag. simpl.
      specialize (IH st1 st' (ws ++ [(r, Finished)]) He).
      by rewrite <- app_assoc in IH.
Qed.

End Bound.

(** ** Every schedule enriches alike *)

Section EverySchedule.
Context `{GoLib}.
Variable w : world.
Variable gc : gitClient.

Lemma unfinished_app ws1 ws2 : unfinished (ws1 ++ ws2) = unfinished ws1 + unfinished ws2.
Proof. unfold unfinished. by rewrite filter_app, length_app. Qed.

Lemma unfinished_cons x ws :
  unfinished (x :: ws) = (if decide (x.2 = Finished) then 0 else 1) + unfinished ws.
Proof. unfold unfinished. rewrite filter_cons. by repeat case_decide. Qed.

Lemma unfinished_insert r ph ph2 : forall ws i,
  ws !! i = Some (r, ph) ->
  unfinished (<[i := (r, ph2)]> ws) + (if decide (ph = Finished) then 0 else 1)
  = unfinished ws + (if decide (ph2 = Finished) then 0 else 1).
Proof.
  induction ws as [|x ws IH]; intros i Hi; [done|].
  destruct i as [|i]; simpl in Hi.
  - injection Hi as ->. simpl. rewrite !unfinished_cons. simpl. lia.
  - simpl. rewrite !unfinished_cons. specialize (IH i Hi). lia.
Qed.

Lemma unfinished_zero ws i p ph :
  unfinished ws = 0 -> ws !! i = Some (p, ph) -> ph = Finished.
Proof.
  revert i. induction ws as [|x ws IH]; intros i Hz Hi; [done|].
  rewrite unfinished_cons in Hz. destruct i as [|i]; simpl in Hi.
  - injection Hi as ->. simpl in Hz. case_decide; [done | lia].
  - eapply IH; [lia | done].
Qed.

Lemma fst_insert_phase (ws : list (nat * phase)) i r ph ph2 :
  ws !! i = Some (r, ph) -> fst <$> <[i := (r, ph2)]> ws = fst <$> ws.
Proof.
  intros Hi. rewrite list_fmap_insert. simpl. apply list_insert_id.
  by rewrite list_lookup_fmap, Hi.
Qed.

(** What a worker that comes back has done to the state. *)
Lemma worker_done r st st' :
  worker w gc r st = Done st' ->
  exists rec rec', heap st !! r = Some rec /\ enriched w gc rec = Some rec'
                   /\ heap st' = <[r := rec']> (heap st) /\ cache st' = cache st.
Proof.
  unfold worker, GetLicense, enriched. destruct (heap st !! r) as [rec|]; [|done].
  destruct (GetLicense_on w gc rec) as [[[rec' err] evs]|] eqn:E; [|done].
  simpl. intros [= <-]. exists rec, rec'. rewrite E. by destruct err.
Qed.

(** A worker whose record can be enriched comes back. *)
Lemma worker_comes_back r st rec rec' :
  heap st !! r = Some rec -> enriched w gc rec = Some rec' ->
  exists st', worker w gc r st = Done st'.
Proof.
  unfold worker, GetLicense, enriched. intros ->.
  destruct (GetLicense_on w gc rec) as [[[rec1 err] evs]|]; [|done].
  intros _. simpl. eauto.
Qed.

(** The schedule of [enrich] over distinct repositories whose records can
    all be enriched: it completes, every listed record is the enriched
    one and the others are untouched. *)
Lemma enrich_distinct repos : forall st,
  NoDup repos ->
  (forall p, p ∈ repos -> is_Some (heap st !! p ≫= enriched w gc)) ->
  exists st', enrich w gc repos st = Done st'
    /\ cache st' = cache st /\ length (heap st') = length (heap st)
    /\ (forall p, p ∈ repos -> heap st' !! p = heap st !! p ≫= enriched w gc)
    /\ (forall p, p ∉ repos -> heap st' !! p = heap st !! p).
Proof.
  induction repos as [|r repos IH]; intros st Hnd Hall; simpl.
  - exists st. split; [done|]. split; [done|]. split; [done|]. split; [|done].
    intros p Hp. by apply elem_of_nil in Hp.
  - apply NoDup_cons in Hnd as [Hnin Hnd].
    destruct (Hall r) as [rec' Hrec']; [by left|].
    destruct (heap st !! r) as [rec|] eqn:Hr; [|done]. simpl in Hrec'.
    destruct (worker_comes_back r (emit (EvLogFetching (URL rec)) st) rec rec' Hr Hrec')
      as [st1 Hw].
    rewrite Hw. simpl.
    destruct (worker_done _ _ _ Hw) as (rec0 & rec0' & Hr0 & He0 & Hh1 & Hc1).
    simpl in Hr0, Hh1, Hc1. rewrite Hr in Hr0. injection Hr0 as <-.
    rewrite Hrec' in He0. injection He0 as <-.
    assert (Hother : forall p, p <> r -> heap st1 !! p = heap st !! p).
    { intros p Hne. rewrite Hh1. by rewrite list_lookup_insert_ne. }
    destruct (IH st1 Hnd) as (st' & He & Hc & Hl & Hin & Hout).
    { intros p Hp. rewrite Hother; [apply Hall; by right|]. intros ->. done. }
    exists st'. split; [done|]. split; [congruence|].
    split; [rewrite Hl, Hh1; by rewrite length_insert|]. split.
    + intros p Hp. apply elem_of_cons in Hp as [->|Hp].
      * rewrite (Hout r Hnin), Hh1, Hr. simpl. rewrite Hrec'.
        apply list_lookup_insert_eq. by eapply lookup_lt_Some.
      * rewrite (Hin p Hp). rewrite Hother; [done|]. intros ->. done.
    + intros p Hp. apply not_elem_of_cons in Hp as [Hne Hp].
      rewrite (Hout p Hp). by apply Hother.
Qed.

Section Run.
Variable repos0 : list ptr.
Variable st0 : state.
Hypothesis Hnodup : NoDup repos0.

Lemma run_invariant_start : run_invariant w gc repos0 st0 (dispatch_start repos0 st0).
Proof.
  simpl. repeat split; done.
Qed.

(** A change of phase that is not the return from [GetLicense] keeps
    every record in order. *)
Lemma record_ok_phase_change (ws : list (nat * phase)) (i r : nat) ph ph2 st :
  ws !! i = Some (r, ph) -> has_returned ph2 = has_returned ph ->
  (forall j p q, ws !! j = Some (p, q) -> record_ok w gc st0 st p q) ->
  forall j p q, <[i := (r, ph2)]> ws !! j = Some (p, q) -> record_ok w gc st0 st p q.
Proof.
  intros Hi Hsame Hall j p q Hj.
  destruct (decide (i = j)) as [<-|Hne].
  - rewrite list_lookup_insert_eq in Hj by (by eapply lookup_lt_Some).
    injection Hj as <- <-. unfold record_ok. rewrite Hsame. by apply (Hall i r ph).
  - rewrite list_lookup_insert_ne in Hj by done. by eapply Hall.
Qed.

Lemma run_invariant_step c c' :
  run_invariant w gc repos0 st0 c -> step w gc c c' -> run_invariant w gc repos0 st0 c'.
Proof.
  intros Hinv Hstep.
  destruct Hstep; simpl in *; try done;
    destruct Hinv as (Hdisp & Hcache & Hlen & Hwg & Hret & Hrec & Hout).
  - (* iteration *) repeat split; try done. lia.
  - (* acquire *) by repeat split.
  - (* go *)
    assert (r ∉ (fst <$> ws)) as Hfresh.
    { rewrite <- Hdisp in Hnodup. apply NoDup_app in Hnodup as (_ & Hdis & _).
      intros Hin. apply (Hdis r Hin). by left. }
    repeat split; try done.
    + rewrite fmap_app. simpl. by rewrite <- app_assoc.
    + rewrite unfinished_app. unfold unfinished at 2. simpl. lia.
    + intros i p ph Hi. apply lookup_app_Some in Hi as [Hi | [_ Hi]]; [by eapply Hrec|].
      apply list_lookup_singleton_Some in Hi as [_ [= <- <-]].
      unfold record_ok. simpl. by apply Hout.
    + intros p Hp. apply Hout. intros Hin. apply Hp. rewrite fmap_app.
      apply elem_of_app. by left.
  - (* end of the loop *) by repeat split.
  - (* wait *) repeat split; try done.
  - (* start *)
    rewrite (fst_insert_phase _ _ _ _ _ H0).
    pose proof (unfinished_insert r Spawned InFlight ws i H0) as Hu.
    repeat case_decide; try done.
    repeat split; try done; [lia|].
    by apply (record_ok_phase_change ws i r Spawned InFlight st).
  - (* return *)
    rewrite (fst_insert_phase _ _ _ _ _ H0).
    pose proof (unfinished_insert r InFlight Returned ws i H0) as Hu.
    repeat case_decide; try done.
    destruct (worker_done _ _ _ H1) as (rec & rec' & Hr & He & Hh & Hc).
    assert (Hr0 : heap st0 !! r = Some rec).
    { pose proof (Hrec i r InFlight H0) as Hok. unfold record_ok in Hok. simpl in Hok.
      congruence. }
    assert (NoDup (fst <$> ws)) as Hnd.
    { rewrite <- Hdisp in Hnodup. by apply NoDup_app in Hnodup as (? & _ & _). }
    repeat split; try done; try congruence.
    + rewrite Hh, length_insert. done.
    + lia.
    + intros j p q Hj. destruct (decide (i = j)) as [<-|Hne].
      * rewrite list_lookup_insert_eq in Hj by (by eapply lookup_lt_Some).
        injection Hj as <- <-. unfold record_ok. simpl.
        rewrite Hh, Hr0. simpl. rewrite He.
        rewrite list_lookup_insert_eq by (by eapply lookup_lt_Some). by split.
      * rewrite list_lookup_insert_ne in Hj by done.
        assert (p <> r) as Hpr.
        { intros ->. apply Hne.
          eapply (NoDup_lookup (fst <$> ws)); [done| |];
            rewrite list_lookup_fmap; [by rewrite H0 | by rewrite Hj]. }
        pose proof (Hrec j p q Hj) as Hok. unfold record_ok in *.
        rewrite Hh. by rewrite list_lookup_insert_ne.
    + intros p Hp. rewrite Hh.
      rewrite list_lookup_insert_ne; [by apply Hout|].
      intros <-. apply Hp. apply list_elem_of_fmap. exists (r, InFlight).
      split; [done|]. by eapply list_elem_of_lookup_2.
  - (* release *)
    rewrite (fst_insert_phase _ _ _ _ _ H0).
    pose proof (unfinished_insert r Returned Released ws i H0) as Hu.
    repeat case_decide; try done.
    repeat split; try done; [lia|].
    by apply (record_ok_phase_change ws i r Returned Released st).
  - (* done *)
    rewrite (fst_insert_phase _ _ _ _ _ H0).
    pose proof (unfinished_insert r Released Finished ws i H0) as Hu.
    repeat case_decide; try done.
    repeat split; try done; [lia | intros Hm; specialize (Hret Hm); lia|].
    by apply (record_ok_phase_change ws i r Released Finished st).
Qed.

Lemma run_invariant_steps c :
  steps w gc (dispatch_start repos0 st0) c -> run_invariant w gc repos0 st0 c.
Proof.
  intros Hsteps. remember (dispatch_start repos0 st0) as c0 eqn:Hc0.
  induction Hsteps as [|c1 c2 c3 _ IH Hstep].
  - subst. apply run_invariant_start.
  - eapply run_invariant_step; [by apply IH | done].
Qed.

(** Whatever the schedule, a run over distinct repositories that gets
    past [wg.Wait()] has the heap and the cache that [enrich] computes. *)
Lemma every_schedule_agrees s :
  steps w gc (dispatch_start repos0 st0) (Live s) -> pc s = MReturned ->
  exists st', enrich w gc repos0 st0 = Done st'
              /\ heap st' = heap (data s) /\ cache st' = cache (data s).
Proof.
  intros Hsteps Hpc. pose proof (run_invariant_steps _ Hsteps) as Hinv. simpl in Hinv.
  destruct Hinv as (Hdisp & Hcache & Hlen & Hwg & Hret & Hrec & Hout).
  rewrite Hpc in Hdisp, Hwg. simpl in Hdisp, Hwg. rewrite app_nil_r in Hdisp.
  specialize (Hret Hpc).
  assert (Hfin : forall p, p ∈ repos0 ->
                   is_Some (heap (data s) !! p)
                   /\ heap (data s) !! p = heap st0 !! p ≫= enriched w gc).
  { intros p Hp. rewrite <- Hdisp in Hp.
    apply list_elem_of_fmap in Hp as ([p' ph] & -> & Hin).
    apply list_elem_of_lookup in Hin as [i Hi].
    assert (ph = Finished) as -> by (eapply unfinished_zero; [|done]; lia).
    exact (Hrec i p' Finished Hi). }
  destruct (enrich_distinct repos0 st0 Hnodup) as (st' & He & Hc & Hl & Hin & Hnot).
  { intros p Hp. destruct (Hfin p Hp) as [Hs Heq]. by rewrite <- Heq. }
  exists st'. split; [done|]. split; [|congruence].
  apply list_eq. intros p. destruct (decide (p ∈ repos0)) as [Hp|Hp].
  - rewrite (Hin p Hp). by destruct (Hfin p Hp) as [_ ->].
  - rewrite (Hnot p Hp). symmetry. apply Hout. by rewrite Hdisp.
Qed.

End Run.

End EverySchedule.

(** C5. In every configuration a run of the dispatch loop can reach,
    whatever the list of repositories and the schedule, at most five
    workers are inside [GetLicense], and at most five hold a slot of the
    semaphore. *)
Theorem at_most_five_in_flight `{GoLib} (w : world) (gc : gitClient)
    (repos : list ptr) (st : state) (c : config) :
  steps w gc (dispatch_start repos st) c ->
  in_flight c <= 5 /\ holding c <= 5.
Proof.
  intros Hsteps.
  pose proof (sem_invariant_steps w gc _ _ (sem_invariant_start repos st) Hsteps) as Hinv.
  destruct c as [s|]; simpl in *; [|lia].
  unfold sem_capacity in Hinv. lia.
Qed.

(** The bound is reached: with five repositories, all five workers can be
    in flight at once. *)
Lemma five_in_flight_reachable :
  exists c, steps (H := ascii_lib) quiet_world (newGitClient "" false)
              (dispatch_start five_repos.1 five_repos.2) c
            /\ in_flight c = 5.
Proof.
  eexists. split.
  - unfold dispatch_start.
    eapply steps_trans; [eapply (dispatch_one quiet_world _ 0);
                         [vm_compute; reflexivity | unfold sem_capacity; lia]|].
    eapply steps_trans; [eapply (dispatch_one quiet_world _ 1);
                         [vm_compute; reflexivity | unfold sem_capacity; lia]|].
    eapply steps_trans; [eapply (dispatch_one quiet_world _ 2);
                         [vm_compute; reflexivity | unfold sem_capacity; lia]|].
    eapply steps_trans; [eapply (dispatch_one quiet_world _ 3);
                         [vm_compute; reflexivity | unfold sem_capacity; lia]|].
    eapply (dispatch_one quiet_world _ 4);
      [vm_compute; reflexivity | unfold sem_capacity; lia].
  - reflexivity.
Qed.

Lemma at_most_five_in_flight_witness :
  let gc := newGitClient "" false in
  let c := Live (mkP (MLoop [1]) 1 1 [(0, InFlight)]
                   (emit (EvLogFetching (URL yaml_repo)) report_state)) in
  steps (H := ascii_lib) quiet_world gc (dispatch_start [0; 1] report_state) c
  /\ in_flight c <= 5 /\ holding c <= 5.
Proof.
  intros gc c.
  assert (Hs : steps (H := ascii_lib) quiet_world gc (dispatch_start [0; 1] report_state) c).
  { apply (dispatch_one (H := ascii_lib) quiet_world gc 0 [1] 0 0 [] report_state yaml_repo);
      [reflexivity | unfold sem_capacity; lia]. }
  split; [exact Hs|].
  exact (@at_most_five_in_flight ascii_lib quiet_world gc [0; 1] report_state c Hs).
Defined.

(** * Further properties of the package *)

(** ** The manifest: [mod.Parse] and [ListRepositories] *)

Lemma parse_deps_with_indirect (reqs : list modfile_Require) :
  parse_deps reqs true = Mod <$> reqs.
Proof.
  induction reqs as [|f reqs IH]; simpl; [done|].
  rewrite andb_false_r. by rewrite IH.
Qed.

Lemma parse_deps_direct (reqs : list modfile_Require) :
  parse_deps reqs false = Mod <$> filter (fun f => Indirect f = false) reqs.
Proof.
  induction reqs as [|f reqs IH]; simpl; [done|].
  rewrite andb_true_r, filter_cons.
  destruct (Indirect f) eqn:E.
  - rewrite decide_False by done. done.
  - rewrite decide_True by done. simpl. by rewrite IH.
Qed.

Lemma filter_indirect_split (reqs : list modfile_Require) :
  length reqs = length (filter (fun f => Indirect f = false) reqs)
                + length (filter (fun f => Indirect f = true) reqs).
Proof.
  induction reqs as [|f reqs IH]; simpl; [done|].
  rewrite !filter_cons. destruct (Indirect f) eqn:E.
  - rewrite decide_False by done. rewrite decide_True by done. simpl. lia.
  - rewrite decide_True by done. rewrite decide_False by done. simpl. lia.
Qed.

(** X1. When the manifest is read and parsed, [mod.Parse] returns the
    modules of its requirements in the manifest's order: all of them with
    indirect ones included, exactly the direct ones otherwise, so the two
    results differ in length by the number of indirect requirements. *)
Theorem Parse_selects_requirements (w : world) (path bts : string)
    (reqs : list modfile_Require) (st : state) :
  os_ReadFile w (filepath_Join w path goMod) = Ok bts ->
  modfile_Parse w bts = Ok reqs ->
  (Parse w path true st).1 = Ok (Mod <$> reqs)
  /\ (Parse w path false st).1 = Ok (Mod <$> filter (fun f => Indirect f = false) reqs)
  /\ length (Mod <$> reqs)
     = length (Mod <$> filter (fun f => Indirect f = false) reqs)
       + length (filter (fun f => Indirect f = true) reqs).
Proof.
  intros Hread Hparse. unfold Parse. rewrite Hread, Hparse. simpl.
  rewrite parse_deps_with_indirect, parse_deps_direct, !length_fmap.
  split; [done|]. split; [done|]. apply filter_indirect_split.
Qed.

Lemma Parse_selects_requirements_witness :
  let reqs := [mkRequire (mkMod "example.com/m" "v1.0.0") false] in
  os_ReadFile mit_world (filepath_Join mit_world "." goMod) = Ok "require example.com/m v1.0.0"
  /\ modfile_Parse mit_world "require example.com/m v1.0.0" = Ok reqs
  /\ (Parse mit_world "." false init_state).1
     = Ok (Mod <$> filter (fun f => Indirect f = false) reqs).
Proof.
  intros reqs. split; [reflexivity|]. split; [reflexivity|].
  exact (proj1 (proj2 (Parse_selects_requirements mit_world "."
                         "require example.com/m v1.0.0" reqs init_state eq_refl eq_refl))).
Defined.

(** X2. When [ListRepositories] returns an error, it is the error of
    reading the manifest or, the manifest read, the error of parsing it,
    and nothing has been resolved: heap and cache are as before. *)
Theorem ListRepositories_error_resolves_nothing (w : world) (path : string)
    (withIndirect : bool) (st : state) (e : error) :
  (ListRepositories w path withIndirect st).1 = Err e ->
  (os_ReadFile w (filepath_Join w path goMod) = Err e
   \/ exists bts, os_ReadFile w (filepath_Join w path goMod) = Ok bts
                  /\ modfile_Parse w bts = Err e)
  /\ heap (ListRepositories w path withIndirect st).2 = heap st
  /\ cache (ListRepositories w path withIndirect st).2 = cache st.
Proof.
  unfold ListRepositories, Parse.
  destruct (os_ReadFile w (filepath_Join w path goMod)) as [bts|e1] eqn:Hread.
  - destruct (modfile_Parse w bts) as [reqs|e2] eqn:Hparse.
    + destruct (resolve_all _ _) as [repos st2]. simpl. done.
    + simpl. intros [= ->]. split; [right; by exists bts | done].
  - simpl. intros [= ->]. split; [by left | done].
Qed.

Lemma ListRepositories_error_resolves_nothing_witness :
  (ListRepositories quiet_world "." false report_state).1
  = Err (ErrOther "open go.mod: no such file or directory")
  /\ heap (ListRepositories quiet_world "." false report_state).2 = heap report_state.
Proof.
  split; [reflexivity|].
  exact (proj1 (proj2 (ListRepositories_error_resolves_nothing quiet_world "." false
                         report_state _ eq_refl))).
Defined.

(** ** The store across runs *)

Lemma fallback_repo_shaped name v : fallback_shaped (fallback_repo name v).
Proof. by repeat split. Qed.

Lemma store_ok_init : store_ok init_state.
Proof.
  split; [|split].
  - intros name p Hc. simpl in Hc. by rewrite lookup_empty in Hc.
  - simpl. by rewrite map_size_empty.
  - constructor.
Qed.

(** A resolution keeps the store in order. *)
Lemma getOtherRepo_store_ok m st : store_ok st -> store_ok (getOtherRepo m st).2.
Proof.
  intros (Hc & Hs & Hf). destruct (cache st !! Path m) as [p|] eqn:Hm.
  - by rewrite (getOtherRepo_hit _ _ _ Hm).
  - rewrite (getOtherRepo_miss _ _ Hm). unfold store_ok. simpl. split; [|split].
    + intros name p. destruct (decide (Path m = name)) as [<-|Hne].
      * rewrite lookup_insert_eq. intros [= <-]. eexists. split; [apply list_lookup_middle; done|done].
      * rewrite lookup_insert_ne by done. intros Hn.
        destruct (Hc name p Hn) as (r & Hr & Hname). exists r.
        split; [by apply lookup_app_l_Some | done].
    + rewrite map_size_insert_None by done. rewrite length_app. simpl. lia.
    + apply Forall_app. split; [done|]. constructor; [apply fallback_repo_shaped | constructor].
Qed.

Lemma resolve_all_store_ok ms : forall st, store_ok st -> store_ok (resolve_all ms st).2.
Proof.
  induction ms as [|m ms IH]; intros st Hok; simpl; [done|].
  unfold getRepository. pose proof (getOtherRepo_store_ok m st Hok) as H1.
  destruct (getOtherRepo m st) as [p st1]. specialize (IH st1 H1).
  by destruct (resolve_all ms st1) as [ps st2].
Qed.

(** Every returned pointer is the one the cache holds for its path. *)
Lemma resolve_all_cached ms : forall st,
  Forall2 (fun m p => cache (resolve_all ms st).2 !! Path m = Some p)
          ms (resolve_all ms st).1.
Proof.
  induction ms as [|m ms IH]; intros st; simpl; [constructor|].
  unfold getRepository. pose proof (getOtherRepo_cached m st) as Hc.
  destruct (getOtherRepo m st) as [p st1]. simpl in Hc.
  specialize (IH st1). pose proof (resolve_all_cache_mono ms st1 _ _ Hc) as Hm.
  destruct (resolve_all ms st1) as [ps st2]. simpl in *. by constructor.
Qed.

(** In a store in order two paths never share a record. *)
Lemma store_ok_injective st n1 n2 p :
  store_ok st -> cache st !! n1 = Some p -> cache st !! n2 = Some p -> n1 = n2.
Proof.
  intros (Hc & _) H1 H2.
  destruct (Hc n1 p H1) as (r1 & Hr1 & <-). destruct (Hc n2 p H2) as (r2 & Hr2 & <-).
  congruence.
Qed.

(** X3. In a resolution pass over a store in order, two modules get the
    same [*Repository] exactly when they have the same path: a path listed
    twice is one shared record, and different paths never share one. *)
Theorem resolution_shares_exactly_equal_paths (ms : list module_Version) (st : state)
    (i j : nat) (mi mj : module_Version) (pi pj : nat) :
  store_ok st ->
  ms !! i = Some mi -> ms !! j = Some mj ->
  (resolve_all ms st).1 !! i = Some pi -> (resolve_all ms st).1 !! j = Some pj ->
  (pi = pj <-> Path mi = Path mj).
Proof.
  intros Hok Hi Hj Hpi Hpj.
  pose proof (resolve_all_store_ok ms st Hok) as Hok'.
  pose proof (resolve_all_cached ms st) as Hall.
  pose proof (Forall2_lookup_lr _ _ _ _ _ _ Hall Hi Hpi) as Hci.
  pose proof (Forall2_lookup_lr _ _ _ _ _ _ Hall Hj Hpj) as Hcj.
  simpl in Hci, Hcj. split.
  - intros <-. by eapply store_ok_injective.
  - intros Heq. rewrite Heq in Hci. congruence.
Qed.

Lemma resolution_shares_exactly_equal_paths_witness :
  let ms := [mkMod "a.io/a" "v1"; mkMod "b.io/b" "v1"; mkMod "a.io/a" "v2"] in
  store_ok init_state
  /\ (resolve_all ms init_state).1 = [0; 1; 0]
  /\ (0 = 0 <-> Path (mkMod "a.io/a" "v1") = Path (mkMod "a.io/a" "v2")).
Proof.
  intros ms. split; [exact store_ok_init|]. split; [reflexivity|].
  exact (resolution_shares_exactly_equal_paths ms init_state 0 2
           (mkMod "a.io/a" "v1") (mkMod "a.io/a" "v2") 0 0 store_ok_init
           eq_refl eq_refl eq_refl eq_refl).
Defined.

Lemma getOtherRepo_dom m st :
  dom (cache (getOtherRepo m st).2) = dom (cache st) ∪ {[Path m]}.
Proof.
  destruct (cache st !! Path m) as [p|] eqn:Hm.
  - rewrite (getOtherRepo_hit _ _ _ Hm). simpl.
    assert (Path m ∈ dom (cache st)) by (apply elem_of_dom; eauto). set_solver.
  - rewrite (getOtherRepo_miss _ _ Hm). simpl. rewrite dom_insert_L. set_solver.
Qed.

Lemma resolve_all_dom ms : forall st,
  dom (cache (resolve_all ms st).2) = dom (cache st) ∪ list_to_set (Path <$> ms).
Proof.
  induction ms as [|m ms IH]; intros st; simpl.
  - set_solver.
  - unfold getRepository. pose proof (getOtherRepo_dom m st) as Hd.
    destruct (getOtherRepo m st) as [p st1]. specialize (IH st1).
    destruct (resolve_all ms st1) as [ps st2]. simpl in *. rewrite IH, Hd. set_solver.
Qed.

(** X4. A resolution pass in a fresh process allocates one record per
    distinct path of the manifest, however often a path is listed, and
    returns one pointer per listed module. *)
Theorem resolution_allocates_one_record_per_path (ms : list module_Version) :
  length (heap (resolve_all ms init_state).2)
  = size (list_to_set (Path <$> ms) : gset string)
  /\ length (resolve_all ms init_state).1 = length ms.
Proof.
  split.
  - destruct (resolve_all_store_ok ms init_state store_ok_init) as (_ & <- & _).
    rewrite <- size_dom. rewrite resolve_all_dom. simpl. rewrite dom_empty_L.
    f_equal. set_solver.
  - symmetry. eapply Forall2_length, resolve_all_cached.
Qed.

(** ** [ParseDependencies] in a store in order *)

Section StoreFacts.
Context `{GoLib}.
Variable w : world.

Lemma store_ok_emit ev st : store_ok st -> store_ok (emit ev st).
Proof. by intros Hok. Qed.

(** What a call of [GetLicense] on a record of the resolver's shape does:
    it goes to the metadata page and nowhere else, returns no error and
    leaves the record in shape, under the same name. *)
Lemma GetLicense_on_shaped gc rec rec' err evs :
  fallback_shaped rec ->
  GetLicense_on w gc rec = Done (rec', err, evs) ->
  err = None /\ fallback_shaped rec' /\ Name rec' = Name rec
  /\ Forall (fun ev => is_github_call ev = false /\ is_error_log ev = false) evs.
Proof.
  intros (Hh & Hu & Ha & Ht & Hl) Hg.
  destruct (GetLicense_pkggodev_frame w gc rec rec' err evs Hh Hg)
    as (-> & Hn & Hu' & Hh' & Ha' & Ht' & Hl').
  split; [done|]. split; [|split; [done|]].
  - unfold fallback_shaped. rewrite Hh', Hu', Hn, Ha', Ht', Hl'. done.
  - rewrite (GetLicense_on_pkggodev _ _ _ Hh) in Hg. unfold GetLicense_pkggodev in Hg.
    destruct (run_callbacks _ _); [|done]. simpl in Hg.
    destruct (visit_err _); injection Hg as _ <-; repeat constructor.
Qed.

Lemma worker_store_ok gc r st st' :
  store_ok st -> worker w gc r st = Done st' ->
  store_ok st' /\ cache st' = cache st
  /\ exists evs, trace st' = trace st ++ evs
       /\ Forall (fun ev => is_github_call ev = false /\ is_error_log ev = false) evs.
Proof.
  intros (Hc & Hs & Hf). unfold worker, GetLicense.
  destruct (heap st !! r) as [rec|] eqn:Hr; [|done].
  destruct (GetLicense_on w gc rec) as [[[rec' err] evs]|] eqn:Hg; [|done].
  pose proof (proj1 (Forall_lookup _ _) Hf r rec Hr) as Hshape.
  destruct (GetLicense_on_shaped gc rec rec' err evs Hshape Hg) as (-> & Hshape' & Hn & Hq).
  simpl. intros [= <-]. simpl. split; [|split; [done | by exists evs]].
  split; [|split]; simpl.
  - intros name p Hp. destruct (Hc name p Hp) as (r0 & Hr0 & Hn0).
    destruct (decide (p = r)) as [->|Hne].
    + exists rec'. split; [|congruence].
      apply list_lookup_insert_eq. by eapply lookup_lt_Some.
    + exists r0. by rewrite list_lookup_insert_ne.
  - by rewrite length_insert.
  - by apply Forall_insert.
Qed.

Lemma enrich_store_ok gc repos : forall st st',
  store_ok st -> enrich w gc repos st = Done st' ->
  store_ok st' /\ cache st' = cache st
  /\ exists evs, trace st' = trace st ++ evs
       /\ Forall (fun ev => is_github_call ev = false /\ is_error_log ev = false) evs.
Proof.
  induction repos as [|r repos IH]; intros st st' Hok; simpl.
  - intros [= <-]. split; [done|]. split; [done|]. exists []. by rewrite app_nil_r.
  - destruct (heap st !! r) as [rec|]; [|done].
    destruct (worker w gc r (emit (EvLogFetching (URL rec)) st)) as [st1|] eqn:Hw; [|done].
    simpl. intros He.
    destruct (worker_store_ok gc r _ st1 (store_ok_emit _ _ Hok) Hw)
      as (Hok1 & Hc1 & evs1 & Ht1 & Hq1).
    destruct (IH st1 st' Hok1 He) as (Hok' & Hc' & evs' & Ht' & Hq').
    split; [done|]. split; [by rewrite Hc', Hc1|].
    exists (EvLogFetching (URL rec) :: evs1 ++ evs'). split.
    + rewrite Ht', Ht1. simpl. by rewrite <- !app_assoc.
    + constructor; [done|]. by apply Forall_app.
Qed.

(** The successful path of [ParseDependencies], step by step. *)
Lemma ParseDependencies_success c includeIndirect thanks st c' st' :
  ParseDependencies w c includeIndirect thanks st = Done (None, c', st') ->
  exists modules repos st1,
    (Parse w (path c) includeIndirect st).1 = Ok modules
    /\ resolve_all modules (Parse w (path c) includeIndirect st).2 = (repos, st1)
    /\ enrich w (newGitClient (Getenv w "GITHUB_API_KEY") thanks) repos
         (emit (EvLogFound (length repos)) st1) = Done st'
    /\ c' = mkClient repos (path c) (format c) (output c).
Proof.
  unfold ParseDependencies, ListRepositories.
  destruct (thanks && String.eqb (Getenv w "GITHUB_API_KEY") ""); [done|].
  destruct (Parse w (path c) includeIndirect st) as [[modules|e] st0]; [|done].
  destruct (resolve_all modules st0) as [repos st1] eqn:Hres.
  destruct (enrich w _ repos _) as [st3|] eqn:He; [|done].
  simpl. intros [= <- <-]. by exists modules, repos, st1.
Qed.

Lemma Parse_store w0 p0 wi st :
  heap (Parse w0 p0 wi st).2 = heap st /\ cache (Parse w0 p0 wi st).2 = cache st
  /\ trace (Parse w0 p0 wi st).2 = trace st ++ [EvReadFile (filepath_Join w0 p0 goMod)].
Proof.
  unfold Parse. destruct (os_ReadFile w0 _); [destruct (modfile_Parse w0 _)|]; done.
Qed.

Lemma store_ok_same st st' :
  heap st' = heap st -> cache st' = cache st -> store_ok st -> store_ok st'.
Proof. unfold store_ok. by intros -> ->. Qed.

Lemma resolve_all_trace ms : forall st, trace (resolve_all ms st).2 = trace st.
Proof.
  induction ms as [|m ms IH]; intros st; simpl; [done|].
  unfold getRepository, getOtherRepo.
  destruct (cache st !! Path m); simpl.
  - specialize (IH st). by destruct (resolve_all ms st).
  - specialize (IH (mkState (heap st ++ [mkRepository (Path m) "" ("https://pkg.go.dev/" +:+ Path m)
                                          "pkg.go.dev" "" "" "" "" (ModVersion m)])
                      (<[Path m := length (heap st)]> (cache st)) (trace st))).
    by destruct (resolve_all ms _).
Qed.

End StoreFacts.

(** X5. The store stays in order through [ParseDependencies]: whatever
    the manifest, the pages, the key and the options, a call that comes
    back leaves every cached path on the record of that name, one record
    per cached path, and every record with [Host] ["pkg.go.dev"], the
    [URL] of its name and empty [Author], [Text] and [License]. *)
Theorem ParseDependencies_keeps_store_in_order `{GoLib} (w : world) (c : Client)
    (includeIndirect thanks : bool) (st : state)
    (res : option error) (c' : Client) (st' : state) :
  store_ok st ->
  ParseDependencies w c includeIndirect thanks st = Done (res, c', st') ->
  store_ok st'.
Proof.
  intros Hok Hp. destruct res as [e|].
  - destruct (ParseDependencies_errors w c includeIndirect thanks st e c' st' Hp)
      as [[_ ->]|Herr]; [done|].
    revert Hp. unfold ParseDependencies, ListRepositories.
    destruct (thanks && String.eqb (Getenv w "GITHUB_API_KEY") "");
      [by intros [= _ _ <-]|].
    destruct (Parse_store w (path c) includeIndirect st) as (Hh & Hc & _).
    destruct (Parse w (path c) includeIndirect st) as [[modules|e0] st0].
    + destruct (resolve_all modules st0) as [repos st1].
      destruct (enrich w _ repos _); simpl; done.
    + intros [= _ _ <-]. by eapply store_ok_same.
  - destruct (ParseDependencies_success w c includeIndirect thanks st c' st' Hp)
      as (modules & repos & st1 & Hparse & Hres & He & _).
    destruct (Parse_store w (path c) includeIndirect st) as (Hh & Hc & _).
    pose proof (resolve_all_store_ok modules _ (store_ok_same _ _ Hh Hc Hok)) as Hok1.
    rewrite Hres in Hok1. simpl in Hok1.
    by destruct (enrich_store_ok w _ repos _ st' (store_ok_emit _ _ Hok1) He).
Qed.

Lemma ParseDependencies_keeps_store_in_order_witness :
  store_ok init_state
  /\ exists c' st',
       @ParseDependencies ascii_lib mit_world csv_client true true init_state
       = Done (None, c', st')
       /\ store_ok st'.
Proof.
  split; [exact store_ok_init|]. eexists _, _. split; [vm_compute; reflexivity|].
  eapply (@ParseDependencies_keeps_store_in_order ascii_lib mit_world csv_client true true
            init_state); [exact store_ok_init | vm_compute; reflexivity].
Defined.

(** X6. In a store in order [ParseDependencies] never calls the GitHub
    API, neither for a license nor to star, whatever the key and the
    thanks option, and never logs an enrichment error: the trace only
    grows, by events that are neither. *)
Theorem ParseDependencies_never_calls_github `{GoLib} (w : world) (c : Client)
    (includeIndirect thanks : bool) (st : state)
    (res : option error) (c' : Client) (st' : state) :
  store_ok st ->
  ParseDependencies w c includeIndirect thanks st = Done (res, c', st') ->
  exists evs, trace st' = trace st ++ evs
    /\ Forall (fun ev => is_github_call ev = false /\ is_error_log ev = false) evs.
Proof.
  intros Hok Hp. destruct res as [e|].
  - revert Hp. unfold ParseDependencies, ListRepositories.
    destruct (thanks && String.eqb (Getenv w "GITHUB_API_KEY") "").
    { intros [= _ _ <-]. exists []. by rewrite app_nil_r. }
    destruct (Parse_store w (path c) includeIndirect st) as (_ & _ & Ht).
    destruct (Parse w (path c) includeIndirect st) as [[modules|e0] st0].
    + destruct (resolve_all modules st0) as [repos st1].
      destruct (enrich w _ repos _); simpl; done.
    + intros [= _ _ <-]. eexists. split; [exact Ht|]. by repeat constructor.
  - destruct (ParseDependencies_success w c includeIndirect thanks st c' st' Hp)
      as (modules & repos & st1 & Hparse & Hres & He & _).
    destruct (Parse_store w (path c) includeIndirect st) as (Hh & Hc & Ht).
    pose proof (resolve_all_store_ok modules _ (store_ok_same _ _ Hh Hc Hok)) as Hok1.
    pose proof (resolve_all_trace modules (Parse w (path c) includeIndirect st).2) as Ht1.
    rewrite Hres in Hok1, Ht1. simpl in Hok1, Ht1.
    destruct (enrich_store_ok w _ repos _ st' (store_ok_emit _ _ Hok1) He)
      as (_ & _ & evs & Ht' & Hq).
    exists (EvReadFile (filepath_Join w (path c) goMod) :: EvLogFound (length repos) :: evs).
    split.
    + rewrite Ht'. simpl. rewrite Ht1, Ht. by rewrite <- !app_assoc.
    + by repeat constructor.
Qed.

Lemma ParseDependencies_never_calls_github_witness :
  store_ok init_state
  /\ exists c' st',
       @ParseDependencies ascii_lib mit_world csv_client true true init_state
       = Done (None, c', st')
       /\ exists evs, trace st' = trace init_state ++ evs
            /\ Forall (fun ev => is_github_call ev = false /\ is_error_log ev = false) evs.
Proof.
  split; [exact store_ok_init|]. eexists _, _. split; [vm_compute; reflexivity|].
  eapply (@ParseDependencies_never_calls_github ascii_lib mit_world csv_client true true
            init_state); [exact store_ok_init | vm_compute; reflexivity].
Defined.

Lemma ParseDependencies_records `{GoLib} (w : world) (c : Client)
    (includeIndirect thanks : bool) (st : state) (c' : Client) (st' : state) :
  store_ok st ->
  ParseDependencies w c includeIndirect thanks st = Done (None, c', st') ->
  path c' = path c /\ format c' = format c /\ output c' = output c
  /\ exists modules,
       (Parse w (path c) includeIndirect st).1 = Ok modules
       /\ Forall2 (fun m p => exists r, heap st' !! p = Some r /\ Name r = Path m
                                        /\ fallback_shaped r)
                  modules (dependencies c').
Proof.
  intros Hok Hp.
  destruct (ParseDependencies_success w c includeIndirect thanks st c' st' Hp)
    as (modules & repos & st1 & Hparse & Hres & He & ->).
  simpl. split; [done|]. split; [done|]. split; [done|].
  exists modules. split; [done|].
  destruct (Parse_store w (path c) includeIndirect st) as (Hh & Hc & _).
  pose proof (resolve_all_store_ok modules _ (store_ok_same _ _ Hh Hc Hok)) as Hok1.
  pose proof (resolve_all_cached modules (Parse w (path c) includeIndirect st).2) as Hall.
  rewrite Hres in Hok1, Hall. simpl in Hok1, Hall.
  destruct (enrich_store_ok w _ repos _ st' (store_ok_emit _ _ Hok1) He)
    as ((Hcache & _ & Hshape) & Hc' & _).
  eapply Forall2_impl; [exact Hall|]. intros m p Hm. simpl in Hm, Hc'.
  rewrite <- Hc' in Hm. destruct (Hcache _ _ Hm) as (r & Hr & Hn).
  exists r. split; [done|]. split; [done|].
  exact (proj1 (Forall_lookup _ _) Hshape p r Hr).
Qed.

(** X7. After a successful [ParseDependencies] in a store in order the
    client keeps its path, format and output and has one dependency per
    module that [mod.Parse] returned, in that order; each is a valid
    pointer to the record named after the module's path, with [Host]
    ["pkg.go.dev"] and with [License], [Text] and [Author] empty. *)
Theorem ParseDependencies_dependencies `{GoLib} (w : world) (c : Client)
    (includeIndirect thanks : bool) (st : state) (c' : Client) (st' : state) :
  store_ok st ->
  ParseDependencies w c includeIndirect thanks st = Done (None, c', st') ->
  path c' = path c /\ format c' = format c /\ output c' = output c
  /\ exists modules,
       (Parse w (path c) includeIndirect st).1 = Ok modules
       /\ Forall2 (fun m p => exists r, heap st' !! p = Some r /\ Name r = Path m
                                        /\ fallback_shaped r)
                  modules (dependencies c').
Proof. apply ParseDependencies_records. Qed.

Lemma ParseDependencies_dependencies_witness :
  store_ok init_state
  /\ exists c' st',
       @ParseDependencies ascii_lib mit_world csv_client true true init_state
       = Done (None, c', st')
       /\ path c' = path csv_client.
Proof.
  split; [exact store_ok_init|]. eexists _, _. split; [vm_compute; reflexivity|].
  eapply (@ParseDependencies_dependencies ascii_lib mit_world csv_client true true
            init_state); [exact store_ok_init | vm_compute; reflexivity].
Defined.

(** ** [GetLicense], case by case *)

Lemma licenseCol_names key name clr :
  licenseCol !! key = Some (name, clr) -> String.eqb name "" = false.
Proof.
  intros Hk. apply elem_of_list_to_map_2 in Hk.
  repeat (apply elem_of_cons in Hk as [Hk|Hk]; [by injection Hk as -> -> ->|]).
  by apply elem_of_nil in Hk.
Qed.

(** X8. When the license API answers with a license key, [GetLicense] on
    a [github.com] repository returns no error, sets [License] to the
    display name the table [licenseCol] has for the key, or to the key
    itself when the table has none, [Shortname] to that name in the
    table's colour, or in yellow, and [Text] to the returned content; the
    other fields are unchanged. *)
Theorem GetLicense_github_success `{GoLib} (w : world) (gc : gitClient) (r : Repository)
    (rl : RepositoryLicense) (key : string) :
  Host r = "github.com" ->
  gh_License w (gh_token gc) (Author r) (Project r) = Ok rl ->
  rl_License rl = Some (mkGhLicense (Some key)) ->
  exists r' evs,
    GetLicense_on w gc r = Done (r', None, evs)
    /\ License r' = default key (fst <$> licenseCol !! key)
    /\ Shortname r'
       = color_Sprintf (default FgYellow (snd <$> licenseCol !! key)) (License r')
    /\ Text r' = GetContent rl
    /\ Name r' = Name r /\ URL r' = URL r /\ Host r' = Host r /\ Author r' = Author r
    /\ Project r' = Project r /\ Version r' = Version r.
Proof.
  intros Hh Hapi Hlic. rewrite (GetLicense_on_github _ _ _ Hh).
  unfold GetLicense_github. rewrite Hapi, Hlic. simpl.
  destruct (licenseCol !! key) as [[name clr]|] eqn:Hk; simpl.
  - rewrite (licenseCol_names _ _ _ Hk). eexists _, _. split; [done|]. by repeat split.
  - eexists _, _. split; [done|]. by repeat split.
Qed.

Lemma GetLicense_github_success_witness :
  let gc := newGitClient "token" true in
  let r := mkRepository "github.com/pkg/errors" "" "https://github.com/pkg/errors"
             "github.com" "pkg" "errors" "" "" "v0.9.1" in
  Host r = "github.com"
  /\ gh_License mit_world (gh_token gc) (Author r) (Project r)
     = Ok (mkRL (Some (mkGhLicense (Some "mit"))) (Some "TUlU"))
  /\ exists r' evs,
       @GetLicense_on ascii_lib mit_world gc r = Done (r', None, evs)
       /\ License r' = default "mit" (fst <$> licenseCol !! "mit").
Proof.
  intros gc r. split; [reflexivity|]. split; [reflexivity|].
  destruct (@GetLicense_github_success ascii_lib mit_world gc r
              (mkRL (Some (mkGhLicense (Some "mit"))) (Some "TUlU")) "mit"
              eq_refl eq_refl eq_refl) as (r' & evs & Hg & Hl & _).
  exists r', evs. split; [exact Hg | exact Hl].
Defined.

(** The calls of the [github.com] case: the license call, then the star
    when the call succeeded and the client is to star and is logged in. *)
Lemma GetLicense_github_calls `{GoLib} (w : world) (gc : gitClient)
    (r r' : Repository) (err : option error) (evs : list event) :
  GetLicense_github w gc r = Done (r', err, evs) ->
  evs = EvGithubLicense (Author r) (Project r)
        :: (if bool_decide (err = None) && star gc && gh_logged gc
            then [EvGithubStar (Author r) (Project r)] else []).
Proof.
  unfold GetLicense_github.
  destruct (gh_License w (gh_token gc) (Author r) (Project r)) as [rl|e].
  - destruct (rl_License rl) as [lic|]; [|done]. destruct (Key lic) as [k|]; [|done].
    destruct (default ("", FgYellow) (licenseCol !! k)) as [name clr].
    destruct (String.eqb name ""); simpl; intros [= <- <- <-];
      by destruct (star gc), (gh_logged gc).
  - by intros [= <- <- <-].
Qed.

(** X9. With the client [newGitClient] builds, [GetLicense] on a
    [github.com] repository stars it exactly when the license call
    succeeded, the star option is on and the key is not empty. *)
Theorem GetLicense_stars_only_when_asked `{GoLib} (w : world) (key : string) (thanks : bool)
    (r r' : Repository) (err : option error) (evs : list event) :
  Host r = "github.com" ->
  GetLicense_on w (newGitClient key thanks) r = Done (r', err, evs) ->
  (EvGithubStar (Author r) (Project r) ∈ evs
   <-> err = None /\ thanks = true /\ key <> "").
Proof.
  intros Hh. rewrite (GetLicense_on_github _ _ _ Hh). intros Hg.
  rewrite (GetLicense_github_calls _ _ _ _ _ _ Hg). simpl.
  destruct err as [e|]; destruct thanks; destruct (String.eqb key "") eqn:Hkey; simpl;
    (split;
     [ intros Hin; apply elem_of_cons in Hin as [Hin|Hin]; [done|];
       first [ by apply elem_of_nil in Hin
             | repeat split; try done; by apply String.eqb_neq ]
     | intros (He & Ht & Hk); try done;
       first [ by apply String.eqb_eq in Hkey
             | right; left ] ]).
Qed.

Lemma GetLicense_stars_only_when_asked_witness :
  let r := mkRepository "github.com/pkg/errors" "" "https://github.com/pkg/errors"
             "github.com" "pkg" "errors" "" "" "v0.9.1" in
  Host r = "github.com"
  /\ exists r' evs,
       @GetLicense_on ascii_lib mit_world (newGitClient "token" true) r = Done (r', None, evs)
       /\ (EvGithubStar "pkg" "errors" ∈ evs
           <-> @None error = None /\ true = true /\ "token" <> "").
Proof.
  intros r. split; [reflexivity|]. eexists _, _. split; [vm_compute; reflexivity|].
  eapply (@GetLicense_stars_only_when_asked ascii_lib mit_world "token" true r);
    [reflexivity | vm_compute; reflexivity].
Defined.

(** A repository on any other host than [github.com] and [pkg.go.dev]
    is not enriched: its worker comes back with the state exactly as it
    was. *)
Lemma worker_skips_other_hosts `{GoLib} (w : world) (gc : gitClient) (p : nat)
    (r : Repository) (st : state) :
  heap st !! p = Some r ->
  Host r <> "github.com" -> Host r <> "pkg.go.dev" ->
  worker w gc p st = Done st.
Proof.
  intros Hp Hg Hd. unfold worker, GetLicense, GetLicense_on. rewrite Hp.
  rewrite !bool_decide_eq_false_2 by done. simpl.
  rewrite (list_insert_id _ _ _ Hp), app_nil_r. by destruct st.
Qed.

Section LastWins.
Context `{GoLib}.

Lemma onRepo_fold_last texts : forall r,
  Project (foldl (fun acc t => onRepo t acc) r texts) = default (Project r) (last texts).
Proof.
  induction texts as [|t texts IH]; intros r; simpl; [done|].
  rewrite IH, last_cons. simpl. by destruct (last texts).
Qed.

Lemma onLicense_fold_last texts : forall r,
  Shortname (foldl (fun acc t => onLicense t acc) r texts)
  = default (Shortname r)
      ((fun l => color_Sprintf (getLicenseColor l) l) <$> last texts).
Proof.
  induction texts as [|t texts IH]; intros r; simpl; [done|].
  rewrite IH, last_cons. simpl. by destruct (last texts).
Qed.

End LastWins.

(** X11. On the fallback path a call of [GetLicense] that comes back has
    visited the repository's [URL] once; [Project] is then the text of the
    last repository block of the page and [Shortname] the last license
    header in its colour, each unchanged when the page has none; a failed
    fetch is printed. *)
Theorem GetLicense_fallback_last_element_wins `{GoLib} (w : world) (gc : gitClient)
    (r r' : Repository) (err : option error) (evs : list event) :
  Host r = "pkg.go.dev" ->
  GetLicense_on w gc r = Done (r', err, evs) ->
  Project r' = default (Project r) (last (repo_blocks (colly_Visit w (URL r))))
  /\ Shortname r'
     = default (Shortname r)
         ((fun l => color_Sprintf (getLicenseColor l) l)
            <$> last (license_spans (colly_Visit w (URL r))))
  /\ evs = EvVisit (URL r)
           :: match visit_err (colly_Visit w (URL r)) with
              | Some e => [EvPrintVisitError (URL r) e]
              | None => []
              end.
Proof.
  intros Hh. rewrite (GetLicense_on_pkggodev _ _ _ Hh).
  unfold GetLicense_pkggodev, run_callbacks.
  destruct (run_onVersion _ r) as [r1|] eqn:E1; [|done]. simpl.
  destruct (run_onVersion_frame _ _ _ E1) as (_ & Hs1 & Hp1).
  intros [= <- _ <-]. split; [|split].
  - rewrite onRepo_fold_last.
    destruct (onLicense_fold_frame (license_spans (colly_Visit w (URL r))) r1) as (_ & _ & ->).
    by rewrite Hp1.
  - destruct (onRepo_fold_frame (repo_blocks (colly_Visit w (URL r)))
                (foldl (fun acc t => onLicense t acc) r1
                   (license_spans (colly_Visit w (URL r))))) as (_ & _ & ->).
    by rewrite onLicense_fold_last, Hs1.
  - by destruct (visit_err _).
Qed.

Lemma GetLicense_fallback_last_element_wins_witness :
  let r := fallback_repo "example.com/m" "v1.0.0" in
  Host r = "pkg.go.dev"
  /\ exists r' evs,
       @GetLicense_on ascii_lib mit_world (newGitClient "" false) r = Done (r', None, evs)
       /\ Project r' = default (Project r) (last (repo_blocks (colly_Visit mit_world (URL r)))).
Proof.
  intros r. split; [reflexivity|]. eexists _, _. split; [vm_compute; reflexivity|].
  eapply (@GetLicense_fallback_last_element_wins ascii_lib mit_world (newGitClient "" false) r);
    [reflexivity | vm_compute; reflexivity].
Defined.

(** ** [NewClient] *)

Lemma validFormats_spec (format : string) :
  default false (validFormats !! format) = true
  <-> format = "table" \/ format = "json" \/ format = "csv".
Proof.
  split.
  - destruct (validFormats !! format) as [b|] eqn:Hf; [|done]. simpl. intros ->.
    apply elem_of_list_to_map_2 in Hf.
    repeat (apply elem_of_cons in Hf as [Hf|Hf]; [injection Hf as ->; tauto|]).
    by apply elem_of_nil in Hf.
  - intros [-> | [-> | ->]]; reflexivity.
Qed.

Lemma validOutputs_spec (output : string) :
  default false (validOutputs !! output) = true
  <-> output = "stdout" \/ output = "file".
Proof.
  split.
  - destruct (validOutputs !! output) as [b|] eqn:Hf; [|done]. simpl. intros ->.
    apply elem_of_list_to_map_2 in Hf.
    repeat (apply elem_of_cons in Hf as [Hf|Hf]; [injection Hf as ->; tauto|]).
    by apply elem_of_nil in Hf.
  - intros [-> | ->]; reflexivity.
Qed.

Lemma NewClient_ok_iff (w : world) (fs : files) (path format output : string)
    (log : list (fs_op * option error)) (c : Client) :
  (NewClient w fs path format output log).1 = Ok c
  <-> (format = "table" \/ format = "json" \/ format = "csv")
      /\ (output = "stdout" \/ output = "file")
      /\ (Exists w fs path log).1 = true
      /\ c = mkClient [] path format output.
Proof.
  rewrite <- validFormats_spec, <- validOutputs_spec. unfold NewClient.
  destruct (Exists w fs path log) as [found log1].
  destruct (default false (validFormats !! format));
    [|split; [done | by intros (? & _)]].
  destruct (default false (validOutputs !! output));
    [|split; [done | by intros (_ & ? & _)]].
  destruct found.
  - split; [intros [= <-]; done | by intros (_ & _ & _ & ->)].
  - split; [done | by intros (_ & _ & ? & _)].
Qed.

(** X12. [NewClient] returns a client exactly when the format is one of
    table, json and csv, the output one of stdout and file, and [go.mod]
    is found under the path; the client then carries the three arguments
    and no dependency. *)
Theorem NewClient_accepts (w : world) (fs : files) (path format output : string)
    (log : list (fs_op * option error)) (c : Client) :
  (NewClient w fs path format output log).1 = Ok c
  <-> (format = "table" \/ format = "json" \/ format = "csv")
      /\ (output = "stdout" \/ output = "file")
      /\ (Exists w fs path log).1 = true
      /\ c = mkClient [] path format output.
Proof. apply NewClient_ok_iff. Qed.

Lemma NewClient_error_cases (w : world) (fs : files) (path format output : string)
    (log : list (fs_op * option error)) (e : error) :
  (NewClient w fs path format output log).1 = Err e ->
  (default false (validFormats !! format) = false
   /\ e = ErrOther ("invalid format provided (" +:+ output
                    +:+ ") - allowed ones are [table, json, csv]")
   /\ (NewClient w fs path format output log).2 = log)
  \/ (default false (validFormats !! format) = true
      /\ default false (validOutputs !! output) = false
      /\ e = ErrOther ("invalid output provided (" +:+ output
                       +:+ ") - allowed ones are [stdout, file]")
      /\ (NewClient w fs path format output log).2 = log)
  \/ (default false (validFormats !! format) = true
      /\ default false (validOutputs !! output) = true
      /\ e = ErrNoGoMod
      /\ exists res, (NewClient w fs path format output log).2
                     = log ++ [(Stat (filepath_Join w path goMod), res)]).
Proof.
  unfold NewClient.
  destruct (default false (validFormats !! format)); simpl;
    [|intros [= <-]; by left].
  destruct (default false (validOutputs !! output)); simpl;
    [|intros [= <-]; right; by left].
  unfold Exists, fs_do. simpl.
  destruct (match fs_result fs log (Stat (filepath_Join w path goMod)) with
            | Some e0 => os_IsExist fs e0
            | None => true
            end); simpl; [done|].
  intros [= <-]. right; right. repeat split; try done. by eexists.
Qed.

(** X13. The errors of [NewClient]: an invalid format and an invalid
    output are both reported with the value of the output, before the
    file system is consulted; with both valid, the error is [ErrNoGoMod]
    and the only call made is the stat of [go.mod] under the path. *)
Theorem NewClient_errors (w : world) (fs : files) (path format output : string)
    (log : list (fs_op * option error)) (e : error) :
  (NewClient w fs path format output log).1 = Err e ->
  (default false (validFormats !! format) = false
   /\ e = ErrOther ("invalid format provided (" +:+ output
                    +:+ ") - allowed ones are [table, json, csv]")
   /\ (NewClient w fs path format output log).2 = log)
  \/ (default false (validFormats !! format) = true
      /\ default false (validOutputs !! output) = false
      /\ e = ErrOther ("invalid output provided (" +:+ output
                       +:+ ") - allowed ones are [stdout, file]")
      /\ (NewClient w fs path format output log).2 = log)
  \/ (default false (validFormats !! format) = true
      /\ default false (validOutputs !! output) = true
      /\ e = ErrNoGoMod
      /\ exists res, (NewClient w fs path format output log).2
                     = log ++ [(Stat (filepath_Join w path goMod), res)]).
Proof. apply NewClient_error_cases. Qed.

Lemma NewClient_errors_witness :
  (NewClient quiet_world fs_fine "." "yaml" "stdout" []).1
  = Err (ErrOther "invalid format provided (stdout) - allowed ones are [table, json, csv]")
  /\ (NewClient quiet_world fs_fine "." "yaml" "stdout" []).2 = [].
Proof.
  split; [reflexivity|].
  destruct (NewClient_errors quiet_world fs_fine "." "yaml" "stdout" [] _ eq_refl)
    as [(_ & _ & Hlog)|[(Hf & _)|(Hf & _)]]; [exact Hlog | discriminate Hf | discriminate Hf].
Defined.

(** ** [Print], [PrintTo] and the package's [Print] *)

Section Rendering.
Context `{GoLib}.
Variable w : world.

Lemma deref_all_valid ps st ds :
  Forall2 (fun p d => heap st !! p = Some d) ps ds -> deref_all ps st = Done ds.
Proof.
  induction 1 as [|p d ps ds Hp _ IH]; simpl; [done|]. by rewrite Hp, IH.
Qed.

Lemma Print_guard c : dependencies c <> [] -> Nat.ltb (length (dependencies c)) 1 = false.
Proof. destruct (dependencies c); [done|]. intros _. reflexivity. Qed.


End Rendering.

(** X14. For a client with dependencies, the table rendering hands the
    writer the header and one row of four cells per dependency, in the
    order of the list, with the name first, the short license name third
    and the version last, and then returns the "invalid output provided"
    error: [Print] never returns nil for the table format. *)
Theorem Print_table_returns_an_error `{GoLib} (w : world) (c : Client) (st : state)
    (ds : list Repository) :
  format c = "table" -> dependencies c <> [] ->
  Forall2 (fun p d => heap st !! p = Some d) (dependencies c) ds ->
  exists rows,
    Print w c st = Done (Table headerRow rows, Some (invalid_output c))
    /\ Forall2 (fun d row => length row = 4 /\ row !! 0 = Some (Name d)
                             /\ row !! 2 = Some (Shortname d)
                             /\ row !! 3 = Some (Version d)) ds rows.
Proof.
  intros Hf Hne Hds. exists (map table_row ds). split.
  - unfold Print. rewrite (Print_guard c Hne), Hf. simpl.
    by rewrite (deref_all_valid _ _ _ Hds).
  - clear. induction ds as [|d ds IH]; simpl; constructor; [by repeat split | done].
Qed.

Lemma Print_table_returns_an_error_witness :
  let c := mkClient [0; 1] "." "table" "stdout" in
  format c = "table" /\ dependencies c <> []
  /\ Forall2 (fun p d => heap report_state !! p = Some d) (dependencies c)
       [yaml_repo; errors_repo]
  /\ exists rows,
       @Print ascii_lib quiet_world c report_state
       = Done (Table headerRow rows, Some (invalid_output c))
       /\ Forall2 (fun d row => length row = 4 /\ row !! 0 = Some (Name d)
                                /\ row !! 2 = Some (Shortname d)
                                /\ row !! 3 = Some (Version d))
            [yaml_repo; errors_repo] rows.
Proof.
  intros c.
  assert (Hds : Forall2 (fun p d => heap report_state !! p = Some d) (dependencies c)
                  [yaml_repo; errors_repo]) by (repeat constructor).
  split; [reflexivity|]. split; [discriminate|]. split; [exact Hds|].
  apply (@Print_table_returns_an_error ascii_lib quiet_world c report_state);
    [reflexivity | discriminate | exact Hds].
Defined.

(** X15. For a client with dependencies and a writer that accepts every
    record, the CSV rendering hands over the header and then one record
    per dependency, in the order of the list, of [Project], [URL] and
    [License]; the returned error is the writer's own. *)
Theorem Print_csv_one_record_per_dependency `{GoLib} (w : world) (c : Client) (st : state)
    (ds : list Repository) :
  format c = "csv" -> dependencies c <> [] ->
  Forall2 (fun p d => heap st !! p = Some d) (dependencies c) ds ->
  (forall written rec, csv_Write w written rec = None) ->
  Print w c st = Done (Csv (headerRow :: map csv_row ds),
                       csv_Error w (headerRow :: map csv_row ds)).
Proof.
  intros Hf Hne Hds Hw. unfold Print. rewrite (Print_guard c Hne), Hf. simpl.
  rewrite Hw, (deref_all_valid _ _ _ Hds). simpl.
  by rewrite (csv_rows_no_error w ds [headerRow] Hw).
Qed.

Lemma Print_csv_one_record_per_dependency_witness :
  format csv_client = "csv" /\ dependencies csv_client <> []
  /\ Forall2 (fun p d => heap report_state !! p = Some d) (dependencies csv_client)
       [yaml_repo; errors_repo]
  /\ (forall written rec, csv_Write quiet_world written rec = None)
  /\ @Print ascii_lib quiet_world csv_client report_state
     = Done (Csv (headerRow :: map csv_row [yaml_repo; errors_repo]), None).
Proof.
  assert (Hds : Forall2 (fun p d => heap report_state !! p = Some d)
                  (dependencies csv_client) [yaml_repo; errors_repo])
    by (repeat constructor).
  split; [reflexivity|]. split; [discriminate|]. split; [exact Hds|].
  split; [reflexivity|].
  apply (@Print_csv_one_record_per_dependency ascii_lib quiet_world csv_client report_state);
    [reflexivity | discriminate | exact Hds | reflexivity].
Defined.



Lemma ParseDependencies_without_thanks `{GoLib} (w : world) (c : Client)
    (includeIndirect : bool) (st : state) (e : error) (c' : Client) (st' : state) :
  ParseDependencies w c includeIndirect false st = Done (Some e, c', st') ->
  (ListRepositories w (path c) includeIndirect st).1 = Err e.
Proof.
  unfold ParseDependencies. simpl.
  destruct (ListRepositories w (path c) includeIndirect st) as [[repos|err] st1].
  - destruct (enrich w _ repos _); simpl; done.
  - by intros [= <- _ _].
Qed.

Lemma PrintTo_cases `{GoLib} (w : world) (fs : files)
    (path format output : string) (indirect : bool) (st : state)
    (log : list (fs_op * option error))
    (res : option error) (out : rendering) (st' : state)
    (log' : list (fs_op * option error)) :
  PrintTo w fs path format output indirect st log = Done (res, out, st', log') ->
  match res with
  | Some e =>
      out = Nothing
      /\ ((NewClient w fs path format output log).1 = Err e
          \/ ((NewClient w fs path format output log).1
              = Ok (mkClient [] path format output)
              /\ (ListRepositories w path indirect st).1 = Err e))
  | None =>
      exists c1 perr,
        ParseDependencies w (mkClient [] path format output) indirect false st
        = Done (None, c1, st')
        /\ Print w c1 st' = Done (out, perr)
  end.
Proof.
  unfold PrintTo.
  pose proof (NewClient_ok_iff w fs path format output log) as Hacc.
  destruct (NewClient w fs path format output log) as [[c|e0] log1]; simpl in *.
  - destruct (proj1 (Hacc c) eq_refl) as (_ & _ & _ & ->).
    destruct (ParseDependencies w _ indirect false st) as [[[err c1] st1]|] eqn:Hp; [|done].
    simpl. destruct err as [e1|].
    + intros [= <- <- <- <-]. split; [done|]. right. split; [done|].
      exact (ParseDependencies_without_thanks w _ indirect st e1 c1 st1 Hp).
    + destruct (Print w c1 st1) as [[o perr]|] eqn:Hpr; [|done]. simpl.
      intros [= <- <- <- <-]. by exists c1, perr.
  - intros [= <- <- <- <-]. split; [done | by left].
Qed.

(** X17. [PrintTo] returns an error only from [NewClient] or from reading
    and parsing the manifest, and then nothing is rendered; when both
    succeed it returns nil whatever [Print] returned, so the error of the
    table rendering and the errors of the writer are dropped. *)
Theorem PrintTo_returns_only_setup_errors `{GoLib} (w : world) (fs : files)
    (path format output : string) (indirect : bool) (st : state)
    (log : list (fs_op * option error))
    (res : option error) (out : rendering) (st' : state)
    (log' : list (fs_op * option error)) :
  PrintTo w fs path format output indirect st log = Done (res, out, st', log') ->
  match res with
  | Some e =>
      out = Nothing
      /\ ((NewClient w fs path format output log).1 = Err e
          \/ ((NewClient w fs path format output log).1
              = Ok (mkClient [] path format output)
              /\ (ListRepositories w path indirect st).1 = Err e))
  | None =>
      exists c1 perr,
        ParseDependencies w (mkClient [] path format output) indirect false st
        = Done (None, c1, st')
        /\ Print w c1 st' = Done (out, perr)
  end.
Proof. apply PrintTo_cases. Qed.

Lemma PrintTo_returns_only_setup_errors_witness :
  exists out st',
    @PrintTo ascii_lib mit_world fs_fine "." "table" "stdout" false init_state []
    = Done (None, out, st', [(Stat "./go.mod", None)])
    /\ exists c1 perr,
         @ParseDependencies ascii_lib mit_world (mkClient [] "." "table" "stdout") false false
           init_state = Done (None, c1, st')
         /\ @Print ascii_lib mit_world c1 st' = Done (out, perr).
Proof.
  eexists _, _. split; [vm_compute; reflexivity|].
  exact (@PrintTo_returns_only_setup_errors ascii_lib mit_world fs_fine "." "table" "stdout"
           false init_state [] None _ _ _ eq_refl).
Defined.

(** X18. The package's [Print] returns no error but [ErrNoGoMod] and the
    error of reading or parsing the manifest, and what it renders, if
    anything, is the table. *)
Theorem Print_package_errors `{GoLib} (w : world) (fs : files) (path : string)
    (indirect : bool) (st : state) (log : list (fs_op * option error))
    (res : option error) (out : rendering) (st' : state)
    (log' : list (fs_op * option error)) :
  glice.Print w fs path indirect st log = Done (res, out, st', log') ->
  (forall e, res = Some e ->
     e = ErrNoGoMod \/ (ListRepositories w path indirect st).1 = Err e)
  /\ (out = Nothing \/ exists rows, out = Table headerRow rows).
Proof.
  unfold glice.Print. intros Hp.
  pose proof (PrintTo_cases w fs path "table" "stdout" indirect st log
                res out st' log' Hp) as Hres.
  destruct res as [e|].
  - destruct Hres as (-> & Herr). split; [|by left].
    intros e' [= <-]. destruct Herr as [Hn|[_ Hl]]; [|by right].
    destruct (NewClient_error_cases w fs path "table" "stdout" log e Hn)
      as [(Hf & _)|[(_ & Ho & _)|(_ & _ & -> & _)]]; [done | done | by left].
  - split; [done|]. destruct Hres as (c1 & perr & Hpd & Hpr).
    destruct (ParseDependencies_success w _ indirect false st c1 st' Hpd)
      as (modules & repos & st1 & _ & _ & _ & ->).
    revert Hpr. unfold Print. simpl.
    destruct (Nat.ltb (length repos) 1); [intros [= <- _]; by left|].
    destruct (deref_all repos st') as [ds|]; [|done]. simpl.
    intros [= <- _]. right. by eexists.
Qed.

Lemma Print_package_errors_witness :
  exists out st' log',
    @glice.Print ascii_lib quiet_world fs_fine "." false init_state []
    = Done (Some (ErrOther "open go.mod: no such file or directory"), out, st', log')
    /\ (ErrOther "open go.mod: no such file or directory" = ErrNoGoMod
        \/ (ListRepositories quiet_world "." false init_state).1
           = Err (ErrOther "open go.mod: no such file or directory")).
Proof.
  eexists _, _, _. split; [vm_compute; reflexivity|].
  exact (proj1 (@Print_package_errors ascii_lib quiet_world fs_fine "." false init_state []
                  _ _ _ _ eq_refl) _ eq_refl).
Defined.

(** ** [WriteLicensesToFile] *)

Lemma created_cons x (log : list (fs_op * option error)) :
  created (x :: log) = (if is_create x then 1 else 0) + created log.
Proof.
  unfold created. rewrite filter_cons. destruct (is_create x); by case_decide.
Qed.

Lemma close_calls_cons x (log : list (fs_op * option error)) :
  close_calls (x :: log) = (if is_close x then 1 else 0) + close_calls log.
Proof.
  unfold close_calls. rewrite filter_cons. destruct (is_close x); by case_decide.
Qed.

Lemma write_licenses_no_text (fs : files) (cpath : string) (st : state) (ds : list nat) :
  forall log,
  Forall (fun p => exists r, heap st !! p = Some r /\ Text r = "") ds ->
  write_licenses fs cpath ds st log = Done (None, log).
Proof.
  induction ds as [|d ds IH]; intros log Hall; simpl; [done|].
  apply Forall_cons in Hall as [(r & -> & ->) Hall]. simpl. by apply IH.
Qed.

(** X19. After a successful [ParseDependencies] in a store in order,
    [WriteLicensesToFile] writes no license: it returns nil having at most
    made the [licenses] directory, since no dependency has a text. *)
Theorem WriteLicensesToFile_after_ParseDependencies `{GoLib} (w : world) (fs : files)
    (c : Client) (includeIndirect thanks : bool) (st : state) (c' : Client) (st' : state)
    (log : list (fs_op * option error)) :
  store_ok st ->
  ParseDependencies w c includeIndirect thanks st = Done (None, c', st') ->
  WriteLicensesToFile fs c' st' log
  = Done (None,
          match dependencies c' with
          | [] => log
          | _ :: _ => log ++ [(Mkdir "licenses", fs_result fs log (Mkdir "licenses"))]
          end).
Proof.
  intros Hok Hp.
  destruct (ParseDependencies_records w c includeIndirect thanks st c' st' Hok Hp)
    as (_ & _ & _ & modules & _ & Hall).
  unfold WriteLicensesToFile. destruct (dependencies c') as [|d ds] eqn:Hd; [done|].
  replace (Nat.ltb (length (d :: ds)) 1) with false by reflexivity.
  unfold fs_do. cbv beta iota zeta. apply write_licenses_no_text.
  apply Forall2_Forall_r with (P := fun m p => exists r, heap st' !! p = Some r
                                   /\ Name r = Path m /\ fallback_shaped r) (l := modules);
    [exact Hall|].
  apply Forall_forall. intros m _ p (r & Hr & _ & (_ & _ & _ & Ht & _)). by exists r.
Qed.

Lemma WriteLicensesToFile_after_ParseDependencies_witness :
  store_ok init_state
  /\ exists c' st',
       @ParseDependencies ascii_lib mit_world csv_client true true init_state
       = Done (None, c', st')
       /\ WriteLicensesToFile fs_fine c' st' [] = Done (None, [(Mkdir "licenses", None)]).
Proof.
  split; [exact store_ok_init|]. eexists _, _. split; [vm_compute; reflexivity|].
  exact (@WriteLicensesToFile_after_ParseDependencies ascii_lib mit_world fs_fine csv_client
           true true init_state _ _ [] store_ok_init eq_refl).
Defined.

Lemma write_licenses_all_fine (fs : files) (cpath : string) (st : state)
    (ds : list nat) (rs : list Repository) :
  (forall lg op, fs_result fs lg op = None) ->
  Forall2 (fun p r => heap st !! p = Some r) ds rs ->
  Forall (fun r => Text r = "" \/ exists dec, base64_DecodeString fs (Text r) = Ok dec) rs ->
  forall log,
  write_licenses fs cpath ds st log
  = Done (None, log ++ concat (license_log fs cpath <$> rs)).
Proof.
  intros Hfs Hds. induction Hds as [|p r ds rs Hp _ IH]; intros Hdec log; simpl.
  - by rewrite app_nil_r.
  - apply Forall_cons in Hdec as [Hr Hdec]. rewrite Hp. unfold license_log at 1.
    destruct (String.eqb (Text r) "") eqn:Ht.
    + simpl. by apply IH.
    + destruct Hr as [Hr|[dec Hr]]; [by apply String.eqb_neq in Ht|].
      rewrite Hr. unfold fs_do. rewrite !Hfs. rewrite IH by done.
      unfold license_calls. by rewrite <- !app_assoc.
Qed.

(** X20. On a file system where every call succeeds and with every
    license text decodable, [WriteLicensesToFile] makes the [licenses]
    directory and then, for each dependency with a text and in the order
    of the list, creates [<author>-<project>-license.MD] under the
    client's path and [licenses], writes the decoded text, syncs and
    closes; dependencies without text are skipped; it returns nil. *)
Theorem WriteLicensesToFile_writes_each_text (fs : files) (c : Client) (st : state)
    (rs : list Repository) (log : list (fs_op * option error)) :
  dependencies c <> [] ->
  (forall lg op, fs_result fs lg op = None) ->
  Forall2 (fun p r => heap st !! p = Some r) (dependencies c) rs ->
  Forall (fun r => Text r = "" \/ exists dec, base64_DecodeString fs (Text r) = Ok dec) rs ->
  WriteLicensesToFile fs c st log
  = Done (None, log ++ (Mkdir "licenses", None)
                       :: concat (license_log fs (path c) <$> rs)).
Proof.
  intros Hne Hfs Hds Hdec. unfold WriteLicensesToFile.
  destruct (dependencies c) as [|d ds] eqn:Hd; [done|].
  replace (Nat.ltb (length (d :: ds)) 1) with false by reflexivity.
  unfold fs_do. cbv beta iota zeta. rewrite Hfs.
  rewrite (write_licenses_all_fine fs (path c) st _ rs Hfs Hds Hdec).
  by rewrite <- app_assoc.
Qed.

Lemma WriteLicensesToFile_writes_each_text_witness :
  let c := mkClient [0] "." "table" "stdout" in
  dependencies c <> []
  /\ (forall lg op, fs_result fs_fine lg op = None)
  /\ Forall2 (fun p r => heap licensed_state !! p = Some r) (dependencies c) [licensed_repo]
  /\ WriteLicensesToFile fs_fine c licensed_state []
     = Done (None, [(Mkdir "licenses", None);
                    (Create "./licenses/pkg-errors-license.MD", None);
                    (Write "./licenses/pkg-errors-license.MD" "MIT", None);
                    (Sync "./licenses/pkg-errors-license.MD", None);
                    (Close "./licenses/pkg-errors-license.MD", None)]).
Proof.
  intros c.
  assert (Hds : Forall2 (fun p r => heap licensed_state !! p = Some r) (dependencies c)
                  [licensed_repo]) by (repeat constructor).
  split; [discriminate|]. split; [reflexivity|]. split; [exact Hds|].
  apply (WriteLicensesToFile_writes_each_text fs_fine c licensed_state [licensed_repo] []);
    [discriminate | reflexivity | exact Hds |].
  constructor; [right; by exists "MIT" | constructor].
Defined.

Lemma count_text_cons (r : Repository) (rs : list Repository) :
  length (filter (fun r => has_text r = true) (r :: rs))
  = (if has_text r then 1 else 0) + length (filter (fun r => has_text r = true) rs).
Proof.
  rewrite filter_cons. destruct (has_text r).
  - by rewrite decide_True.
  - by rewrite decide_False.
Qed.

(** What the loop adds to the log: never more closes than files created,
    at most one file created and not closed, and on success one file
    created and closed per dependency with a text. *)
Lemma write_licenses_balance (fs : files) (cpath : string) (st : state)
    (ds : list nat) (rs : list Repository) :
  Forall2 (fun p r => heap st !! p = Some r) ds rs ->
  forall log res log',
  write_licenses fs cpath ds st log = Done (res, log') ->
  exists ext, log' = log ++ ext
    /\ close_calls ext <= created ext /\ created ext <= close_calls ext + 1
    /\ (res = None ->
        created ext = length (filter (fun r => has_text r = true) rs)
        /\ close_calls ext = created ext).
Proof.
  assert (Hnil : created [] = 0 /\ close_calls [] = 0) by done.
  destruct Hnil as [Hc0 Hk0].
  induction 1 as [|p r ds rs Hp _ IH]; intros log res log'.
  - simpl. intros [= <- <-]. exists []. rewrite app_nil_r, Hc0, Hk0.
    split; [done|]. split; [lia|]. split; [lia | done].
  - rewrite count_text_cons. unfold has_text at 1.
    remember (length (filter (fun r0 => has_text r0 = true) rs)) as n eqn:Hn.
    simpl. rewrite Hp.
    destruct (String.eqb (Text r) "") eqn:Ht; simpl.
    { subst n. apply IH. }
    destruct (base64_DecodeString fs (Text r)) as [dec|e].
    2:{ intros [= <- <-]. exists []. rewrite app_nil_r, Hc0, Hk0.
        split; [done|]. split; [lia|]. split; [lia | done]. }
    unfold fs_do.
    set (name := filepath_Join3 fs cpath "licenses"
                   (Author r +:+ "-" +:+ Project r +:+ "-license.MD")).
    destruct (fs_result fs log (Create name)) as [e1|] eqn:H1.
    { intros [= <- <-]. eexists. split; [done|].
      rewrite !created_cons, !close_calls_cons, Hc0, Hk0. simpl.
      split; [lia|]. split; [lia | done]. }
    destruct (fs_result fs _ (Write name dec)) as [e2|] eqn:H2.
    { intros [= <- <-]. eexists. split; [by rewrite <- app_assoc|]. simpl.
      rewrite !created_cons, !close_calls_cons, Hc0, Hk0. simpl.
      split; [lia|]. split; [lia | done]. }
    destruct (fs_result fs _ (Sync name)) as [e3|] eqn:H3.
    { intros [= <- <-]. eexists. split; [by rewrite <- !app_assoc|]. simpl.
      rewrite !created_cons, !close_calls_cons, Hc0, Hk0. simpl.
      split; [lia|]. split; [lia | done]. }
    destruct (fs_result fs _ (Close name)) as [e4|] eqn:H4.
    { intros [= <- <-]. eexists. split; [by rewrite <- !app_assoc|]. simpl.
      rewrite !created_cons, !close_calls_cons, Hc0, Hk0. simpl.
      split; [lia|]. split; [lia | done]. }
    intros Hw. destruct (IH _ _ _ Hw) as (ext & -> & Hle & Hge & Hnone).
    eexists. split; [by rewrite <- !app_assoc|]. simpl.
    rewrite !created_cons, !close_calls_cons. simpl.
    unfold created, close_calls in *.
    split; [lia|]. split; [lia|]. intros Hres. destruct (Hnone Hres). subst n. lia.
Qed.

(** X21. Whatever the file system answers, a call of
    [WriteLicensesToFile] that comes back has closed every file it
    created but possibly the last one; when it returns nil, it has
    created and closed exactly one file per dependency with a text. *)
Theorem WriteLicensesToFile_closes_its_files (fs : files) (c : Client) (st : state)
    (rs : list Repository) (log : list (fs_op * option error))
    (res : option error) (log' : list (fs_op * option error)) :
  Forall2 (fun p r => heap st !! p = Some r) (dependencies c) rs ->
  WriteLicensesToFile fs c st log = Done (res, log') ->
  exists ext, log' = log ++ ext
    /\ close_calls ext <= created ext /\ created ext <= close_calls ext + 1
    /\ (res = None ->
        created ext = length (filter (fun r => has_text r = true) rs)
        /\ close_calls ext = created ext).
Proof.
  intros Hds. unfold WriteLicensesToFile.
  destruct (dependencies c) as [|d ds] eqn:Hd.
  - apply Forall2_nil_inv_l in Hds as ->. simpl. intros [= <- <-].
    exists []. rewrite app_nil_r. split; [done|].
    change (created []) with 0. change (close_calls []) with 0.
    split; [lia|]. split; [lia | done].
  - replace (Nat.ltb (length (d :: ds)) 1) with false by reflexivity.
    unfold fs_do. cbv beta iota zeta. intros Hw.
    destruct (write_licenses_balance fs (path c) st _ rs Hds _ _ _ Hw)
      as (ext & -> & Hle & Hge & Hnone).
    eexists. split; [by rewrite <- app_assoc|].
    simpl. rewrite !created_cons, !close_calls_cons. simpl.
    unfold created, close_calls in *.
    split; [lia|]. split; [lia | done].
Qed.

Lemma WriteLicensesToFile_closes_its_files_witness :
  let c := mkClient [0] "." "table" "stdout" in
  Forall2 (fun p r => heap licensed_state !! p = Some r) (dependencies c) [licensed_repo]
  /\ exists res log',
       WriteLicensesToFile fs_full c licensed_state [] = Done (res, log')
       /\ exists ext, log' = [] ++ ext
            /\ close_calls ext <= created ext /\ created ext <= close_calls ext + 1.
Proof.
  intros c.
  assert (Hds : Forall2 (fun p r => heap licensed_state !! p = Some r) (dependencies c)
                  [licensed_repo]) by (repeat constructor).
  split; [exact Hds|]. eexists _, _. split; [vm_compute; reflexivity|].
  destruct (WriteLicensesToFile_closes_its_files fs_full c licensed_state [licensed_repo] []
              _ _ Hds eq_refl) as (ext & He & Hle & Hge & _).
  exists ext. split; [exact He|]. split; [exact Hle | exact Hge].
Defined.

Lemma write_licenses_error_leaks (fs : files) (cpath : string) (st : state)
    (ds : list nat) (rs : list Repository) :
  (forall lg name, fs_result fs lg (Create name) = None) ->
  (forall lg name, fs_result fs lg (Close name) = None) ->
  Forall2 (fun p r => heap st !! p = Some r) ds rs ->
  Forall (fun r => Text r = "" \/ exists dec, base64_DecodeString fs (Text r) = Ok dec) rs ->
  forall log e log',
  write_licenses fs cpath ds st log = Done (Some e, log') ->
  exists ext, log' = log ++ ext /\ created ext = close_calls ext + 1.
Proof.
  intros Hcreate Hclose Hds. induction Hds as [|p r ds rs Hp _ IH]; intros Hdec log e log'.
  - simpl. done.
  - apply Forall_cons in Hdec as [Hr Hdec]. simpl. rewrite Hp.
    destruct (String.eqb (Text r) "") eqn:Ht; simpl; [by apply IH|].
    destruct Hr as [Hr|[dec Hr]]; [by apply String.eqb_neq in Ht|].
    rewrite Hr. unfold fs_do. rewrite Hcreate.
    set (name := filepath_Join3 fs cpath "licenses"
                   (Author r +:+ "-" +:+ Project r +:+ "-license.MD")).
    destruct (fs_result fs _ (Write name dec)) as [e2|] eqn:H2.
    { intros [= <- <-]. eexists. split; [by rewrite <- app_assoc|]. cbn [app].
      rewrite !created_cons, !close_calls_cons. reflexivity. }
    destruct (fs_result fs _ (Sync name)) as [e3|] eqn:H3.
    { intros [= <- <-]. eexists. split; [by rewrite <- !app_assoc|]. cbn [app].
      rewrite !created_cons, !close_calls_cons. reflexivity. }
    rewrite Hclose. intros Hw.
    destruct (IH Hdec _ _ _ Hw) as (ext & -> & Hbal).
    eexists. split; [by rewrite <- !app_assoc|]. cbn [app].
    rewrite !created_cons, !close_calls_cons. cbn [is_create is_close]. by rewrite Hbal.
Qed.

(** X22. When creating and closing files never fail and every license
    text is decodable, an error return of [WriteLicensesToFile] comes from
    a write or a sync, and the file it was writing is left open: the log
    shows one more file created than calls of [Close]. *)
Theorem WriteLicensesToFile_error_leaves_a_file_open (fs : files) (c : Client) (st : state)
    (rs : list Repository) (log : list (fs_op * option error))
    (e : error) (log' : list (fs_op * option error)) :
  (forall lg name, fs_result fs lg (Create name) = None) ->
  (forall lg name, fs_result fs lg (Close name) = None) ->
  Forall2 (fun p r => heap st !! p = Some r) (dependencies c) rs ->
  Forall (fun r => Text r = "" \/ exists dec, base64_DecodeString fs (Text r) = Ok dec) rs ->
  WriteLicensesToFile fs c st log = Done (Some e, log') ->
  exists ext, log' = log ++ ext /\ created ext = close_calls ext + 1.
Proof.
  intros Hcreate Hclose Hds Hdec. unfold WriteLicensesToFile.
  destruct (Nat.ltb (length (dependencies c)) 1); [done|].
  unfold fs_do. cbv beta iota zeta. intros Hw.
  destruct (write_licenses_error_leaks fs (path c) st _ rs Hcreate Hclose Hds Hdec _ _ _ Hw)
    as (ext & -> & Hbal).
  eexists. split; [by rewrite <- app_assoc|]. cbn [app].
  rewrite created_cons, close_calls_cons. cbn [is_create is_close]. exact Hbal.
Qed.

Lemma WriteLicensesToFile_error_leaves_a_file_open_witness :
  let c := mkClient [0] "." "table" "stdout" in
  (forall lg name, fs_result fs_full lg (Create name) = None)
  /\ (forall lg name, fs_result fs_full lg (Close name) = None)
  /\ WriteLicensesToFile fs_full c licensed_state []
     = Done (Some (ErrOther "no space left on device"),
             [(Mkdir "licenses", None);
              (Create "./licenses/pkg-errors-license.MD", None);
              (Write "./licenses/pkg-errors-license.MD" "MIT",
               Some (ErrOther "no space left on device"))])
  /\ exists ext,
       [(Mkdir "licenses", None);
        (Create "./licenses/pkg-errors-license.MD", None);
        (Write "./licenses/pkg-errors-license.MD" "MIT",
         Some (ErrOther "no space left on device"))] = [] ++ ext
       /\ created ext = close_calls ext + 1.
Proof.
  intros c. split; [reflexivity|]. split; [reflexivity|]. split; [reflexivity|].
  apply (WriteLicensesToFile_error_leaves_a_file_open fs_full c licensed_state
           [licensed_repo] [] (ErrOther "no space left on device"));
    [reflexivity | reflexivity | repeat constructor | | reflexivity].
  constructor; [right; by exists "MIT" | constructor].
Defined.

(** ** The goroutines: barrier, crashes, progress and termination *)

Section Sync.
Context `{GoLib}.
Variable w : world.
Variable gc : gitClient.

Lemma lookup_unfinished (ws : list (nat * phase)) i r ph :
  ws !! i = Some (r, ph) -> ph <> Finished -> 1 <= unfinished ws.
Proof.
  revert i. induction ws as [|x ws IH]; intros i Hi Hne; [done|].
  rewrite unfinished_cons. destruct i as [|i]; simpl in Hi.
  - injection Hi as ->. simpl. rewrite decide_False by done. lia.
  - specialize (IH i Hi Hne). lia.
Qed.

Lemma unfinished_pos (ws : list (nat * phase)) :
  1 <= unfinished ws -> exists i r ph, ws !! i = Some (r, ph) /\ ph <> Finished.
Proof.
  induction ws as [|[r ph] ws IH]; [unfold unfinished; simpl; lia|].
  rewrite unfinished_cons. simpl. destruct (decide (ph = Finished)) as [->|Hne].
  - intros Hpos. destruct (IH Hpos) as (i & r' & ph' & Hi & Hne).
    by exists (S i), r', ph'.
  - intros _. by exists 0, r, ph.
Qed.

Lemma count_phase_pos q (ws : list (nat * phase)) :
  1 <= count_phase q ws -> exists i r, ws !! i = Some (r, q).
Proof.
  induction ws as [|[r ph] ws IH]; [unfold count_phase; simpl; lia|].
  rewrite count_phase_cons. simpl. destruct (decide (ph = q)) as [->|Hne].
  - intros _. by exists 0, r.
  - intros Hpos. destruct (IH Hpos) as (i & r' & Hi). by exists (S i), r'.
Qed.

Lemma lookup_count_phase q (ws : list (nat * phase)) i r :
  ws !! i = Some (r, q) -> 1 <= count_phase q ws.
Proof.
  revert i. induction ws as [|x ws IH]; intros i Hi; [done|].
  rewrite count_phase_cons. destruct i as [|i]; simpl in Hi.
  - injection Hi as ->. simpl. rewrite decide_True by done. lia.
  - specialize (IH i Hi). lia.
Qed.

Lemma all_finished (ws : list (nat * phase)) :
  unfinished ws = 0 -> ws = (fun r => (r, Finished)) <$> (fst <$> ws).
Proof.
  induction ws as [|[r ph] ws IH]; [done|].
  rewrite unfinished_cons. simpl. destruct (decide (ph = Finished)) as [->|Hne]; [|lia].
  intros Hz. simpl. f_equal. apply IH. lia.
Qed.

Lemma count_phase_finished q (l : list nat) :
  q <> Finished -> count_phase q ((fun r => (r, Finished)) <$> l) = 0.
Proof.
  intros Hq. induction l as [|r l IH]; [done|].
  rewrite fmap_cons, count_phase_cons. cbn [snd].
  rewrite decide_False by done. by rewrite IH.
Qed.

Lemma sync_invariant_start repos st : sync_invariant repos (dispatch_start repos st).
Proof. simpl. by repeat split. Qed.

Lemma sync_invariant_step repos c c' :
  sync_invariant repos c -> step w gc c c' -> sync_invariant repos c'.
Proof.
  intros Hinv Hstep.
  destruct Hstep; simpl in *; try done; destruct Hinv as (Hdisp & Hwg & Hret);
    try match goal with
        | Hi : ?ws !! ?i = Some (?r, ?ph) |- context [<[?i := (?r, ?ph2)]> ?ws] =>
            rewrite (fst_insert_phase ws i r ph ph2 Hi);
            pose proof (unfinished_insert r ph ph2 ws i Hi);
            repeat case_decide; try done
        end.
  - split; [done|]. split; [lia | done].
  - by repeat split.
  - split; [rewrite fmap_app; simpl; by rewrite <- app_assoc|].
    split; [|done]. rewrite unfinished_app. unfold unfinished at 2. simpl. lia.
  - by repeat split.
  - by repeat split.
  - split; [done|]. split; [lia | done].
  - split; [done|]. split; [lia | done].
  - split; [done|]. split; [lia | done].
  - split; [done|]. split; [lia|]. intros Hm. specialize (Hret Hm). lia.
Qed.

Lemma sync_invariant_steps repos st c :
  steps w gc (dispatch_start repos st) c -> sync_invariant repos c.
Proof.
  intros Hsteps. remember (dispatch_start repos st) as c0 eqn:Hc0.
  induction Hsteps as [|c1 c2 c3 _ IH Hstep].
  - subst. apply sync_invariant_start.
  - eapply sync_invariant_step; [by apply IH | done].
Qed.

(** A worker that has not finished can take its next step, provided the
    semaphore holds a slot when it is to give one back and the WaitGroup
    counts it when it is to leave. *)
Lemma worker_can_step m k g (ws : list (nat * phase)) st i r ph :
  ws !! i = Some (r, ph) -> ph <> Finished ->
  (ph = Returned -> 1 <= k) -> (ph = Released -> 1 <= g) ->
  exists c', step w gc (Live (mkP m k g ws st)) c'.
Proof.
  intros Hi Hne Hk Hg. destruct ph; [| | | |done].
  - eexists. by eapply step_start.
  - destruct (worker w gc r st) as [st'|msg] eqn:Hw.
    + eexists. by eapply step_return.
    + eexists. by eapply step_panic.
  - destruct k as [|k]; [specialize (Hk eq_refl); lia|].
    eexists. by eapply step_release.
  - destruct g as [|g]; [specialize (Hg eq_refl); lia|].
    eexists. by eapply step_done.
Qed.

Lemma weight_sum_insert r ph ph2 : forall (ws : list (nat * phase)) i,
  ws !! i = Some (r, ph) ->
  sum_list_with (fun x => weight x.2) (<[i := (r, ph2)]> ws) + weight ph
  = sum_list_with (fun x => weight x.2) ws + weight ph2.
Proof.
  induction ws as [|x ws IH]; intros i Hi; [done|].
  destruct i as [|i]; simpl in Hi.
  - injection Hi as ->. simpl. lia.
  - simpl. specialize (IH i Hi). lia.
Qed.

(** Every step uses up one of the steps left. *)
Lemma step_decreases c c' : step w gc c c' -> steps_left c' < steps_left c.
Proof.
  intros Hstep.
  destruct Hstep; simpl;
    try match goal with
        | Hi : ?ws !! ?i = Some (?r, ?ph) |- context [<[?i := (?r, ?ph2)]> ?ws] =>
            pose proof (weight_sum_insert r ph ph2 ws i Hi) as Hsum; simpl in Hsum
        end;
    try match goal with
        | Hi : ?ws !! ?i = Some (?r, ?ph) |- _ =>
            pose proof (weight_sum_insert r ph Finished ws i Hi) as Hpos; simpl in Hpos
        end;
    rewrite ?sum_list_with_app; simpl; lia.
Qed.

Lemma nsteps_bound n c c' : nsteps w gc n c c' -> n + steps_left c' <= steps_left c.
Proof.
  induction 1 as [|n c1 c2 c3 _ IH Hstep]; [lia|].
  pose proof (step_decreases _ _ Hstep). lia.
Qed.

End Sync.

(** X23. [wg.Wait()] is a barrier: in every run of the dispatch loop,
    once the main goroutine is past it every repository has been handed
    to a worker, in the order of the list, every worker has finished, the
    WaitGroup is at zero and the semaphore is empty. *)
Theorem wait_is_a_barrier `{GoLib} (w : world) (gc : gitClient) (repos : list nat)
    (st : state) (s : pstate) :
  steps w gc (dispatch_start repos st) (Live s) ->
  pc s = MReturned ->
  workers s = (fun r => (r, Finished)) <$> repos /\ wg s = 0 /\ sem s = 0.
Proof.
  intros Hsteps Hpc.
  pose proof (sync_invariant_steps w gc repos st _ Hsteps) as (Hdisp & Hwg & Hret).
  pose proof (sem_invariant_steps w gc _ _ (sem_invariant_start repos st) Hsteps)
    as (Hsem & _).
  rewrite Hpc in Hdisp, Hwg, Hsem. simpl in Hdisp, Hwg, Hsem.
  rewrite app_nil_r in Hdisp. specialize (Hret Hpc).
  assert (workers s = (fun r => (r, Finished)) <$> repos) as Hws.
  { rewrite <- Hdisp. apply all_finished. lia. }
  split; [done|]. split; [done|].
  rewrite Hsem, Hws, !count_phase_finished by done. done.
Qed.

Lemma wait_is_a_barrier_witness :
  let gc := newGitClient "" false in
  exists s,
    steps (H := ascii_lib) quiet_world gc (dispatch_start [0; 1] report_state) (Live s)
    /\ pc s = MReturned
    /\ workers s = [(0, Finished); (1, Finished)] /\ wg s = 0 /\ sem s = 0.
Proof.
  intros gc.
  assert (He : exists st', @enrich ascii_lib quiet_world gc [0; 1] report_state = Done st')
    by (eexists; vm_compute; reflexivity).
  destruct He as [st' He].
  pose proof (@enrich_is_a_run ascii_lib quiet_world gc [0; 1] report_state st' [] He) as Hrun.
  eexists. split; [exact Hrun|]. split; [reflexivity|].
  exact (@wait_is_a_barrier ascii_lib quiet_world gc [0; 1] report_state _ Hrun eq_refl).
Defined.

(** X24. The synchronisation never crashes a run: a configuration reached
    from the start of the dispatch loop can only crash because a worker
    panics inside [GetLicense] or because the repository at the head of
    the list is nil, never because [wg.Done()] drives the counter below
    zero. *)
Theorem runs_crash_only_in_workers `{GoLib} (w : world) (gc : gitClient) (repos : list nat)
    (st : state) (s : pstate) :
  steps w gc (dispatch_start repos st) (Live s) ->
  step w gc (Live s) Crashed ->
  (exists i r msg, workers s !! i = Some (r, InFlight)
                   /\ worker w gc r (data s) = Panic msg)
  \/ (exists r rest, pc s = MLoop (r :: rest) /\ heap (data s) !! r = None).
Proof.
  intros Hsteps Hcrash.
  pose proof (sync_invariant_steps w gc repos st _ Hsteps) as Hinv.
  inversion Hcrash; subst; simpl in *.
  - right. by eexists _, _.
  - left. by eexists _, _, _.
  - destruct Hinv as (_ & Hwg & _).
    pose proof (lookup_unfinished ws i r Released ltac:(eassumption) ltac:(done)). lia.
Qed.

Lemma runs_crash_only_in_workers_witness :
  let gc := newGitClient "" false in
  let s := mkP (MLoop [7]) 0 0 [] report_state in
  steps (H := ascii_lib) quiet_world gc (dispatch_start [7] report_state) (Live s)
  /\ step (H := ascii_lib) quiet_world gc (Live s) Crashed
  /\ ((exists i r msg, workers s !! i = Some (r, InFlight)
                       /\ @worker ascii_lib quiet_world gc r (data s) = Panic msg)
      \/ (exists r rest, pc s = MLoop (r :: rest) /\ heap (data s) !! r = None)).
Proof.
  intros gc s.
  assert (Hs : steps (H := ascii_lib) quiet_world gc (dispatch_start [7] report_state) (Live s))
    by apply steps_refl.
  assert (Hc : step (H := ascii_lib) quiet_world gc (Live s) Crashed)
    by (apply step_iter_nil; reflexivity).
  split; [exact Hs|]. split; [exact Hc|].
  exact (@runs_crash_only_in_workers ascii_lib quiet_world gc [7] report_state s Hs Hc).
Defined.

(** X25. The dispatch loop never deadlocks: every configuration reached
    from its start in which the main goroutine is not yet past
    [wg.Wait()] can take a step. *)
Theorem dispatch_never_deadlocks `{GoLib} (w : world) (gc : gitClient) (repos : list nat)
    (st : state) (s : pstate) :
  steps w gc (dispatch_start repos st) (Live s) ->
  pc s <> MReturned ->
  exists c', step w gc (Live s) c'.
Proof.
  intros Hsteps Hpc.
  pose proof (sync_invariant_steps w gc repos st _ Hsteps) as (_ & Hwg & _).
  pose proof (sem_invariant_steps w gc _ _ (sem_invariant_start repos st) Hsteps)
    as (Hsem & Hcap).
  destruct s as [m k g ws st1]. simpl in *. unfold sem_capacity in *.
  assert (Hworker : forall i r ph, ws !! i = Some (r, ph) -> ph <> Finished ->
                      (ph = Released -> 1 <= g) ->
                      exists c', step w gc (Live (mkP m k g ws st1)) c').
  { intros i r ph Hi Hne Hg. eapply worker_can_step; [done | done | | done].
    intros ->. pose proof (lookup_count_phase Returned ws i r Hi). lia. }
  destruct m as [[|r rest]|r rest|r rest| |]; simpl in *.
  - eexists. apply step_loop_end.
  - destruct (heap st1 !! r) as [rec|] eqn:Hr.
    + eexists. by eapply step_iter.
    + eexists. by eapply step_iter_nil.
  - destruct (decide (k < 5)) as [Hlt|Hge].
    + eexists. by apply step_acquire.
    + assert (1 <= count_phase Spawned ws \/ 1 <= count_phase InFlight ws
              \/ 1 <= count_phase Returned ws) as [Hc|[Hc|Hc]] by lia;
        apply count_phase_pos in Hc as (i & r0 & Hi);
        (eapply Hworker; [exact Hi | done | done]).
  - eexists. apply step_go.
  - destruct g as [|g].
    + eexists. apply step_wait.
    + destruct (unfinished_pos ws) as (i & r0 & ph & Hi & Hne); [lia|].
      eapply Hworker; [exact Hi | done | lia].
  - done.
Qed.

Lemma dispatch_never_deadlocks_witness :
  let gc := newGitClient "" false in
  let s := mkP (MLoop [0; 1]) 0 0 [] report_state in
  steps (H := ascii_lib) quiet_world gc (dispatch_start [0; 1] report_state) (Live s)
  /\ pc s <> MReturned
  /\ exists c', step (H := ascii_lib) quiet_world gc (Live s) c'.
Proof.
  intros gc s.
  assert (Hs : steps (H := ascii_lib) quiet_world gc (dispatch_start [0; 1] report_state)
                 (Live s)) by apply steps_refl.
  split; [exact Hs|]. split; [discriminate|].
  exact (@dispatch_never_deadlocks ascii_lib quiet_world gc [0; 1] report_state s Hs
           ltac:(discriminate)).
Defined.

(** X26. Every schedule of the dispatch loop is finite: a run over [N]
    repositories takes at most [7 * N + 2] steps, whatever the workers
    and the scheduler do. *)
Theorem dispatch_terminates `{GoLib} (w : world) (gc : gitClient) (repos : list nat)
    (st : state) (n : nat) (c : config) :
  nsteps w gc n (dispatch_start repos st) c ->
  n <= 7 * length repos + 2.
Proof.
  intros Hrun. pose proof (nsteps_bound w gc _ _ _ Hrun) as Hb. simpl in Hb. lia.
Qed.

Lemma dispatch_terminates_witness :
  let gc := newGitClient "" false in
  nsteps (H := ascii_lib) quiet_world gc 1 (dispatch_start [] report_state)
    (Live (mkP MWait 0 0 [] report_state))
  /\ 1 <= 7 * length (@nil nat) + 2.
Proof.
  intros gc.
  assert (Hrun : nsteps (H := ascii_lib) quiet_world gc 1 (dispatch_start [] report_state)
                   (Live (mkP MWait 0 0 [] report_state))).
  { eapply nsteps_S; [apply nsteps_O | apply step_loop_end]. }
  split; [exact Hrun|].
  exact (@dispatch_terminates ascii_lib quiet_world gc [] report_state 1 _ Hrun).
Defined.

(** X10. The result of enrichment does not depend on the schedule: over
    distinct repositories, every run of the dispatch loop that gets past
    [wg.Wait()] has the heap and the cache that the loop computes when
    each worker finishes before the next is dispatched. *)
Theorem schedules_agree_on_the_store `{GoLib} (w : world) (gc : gitClient)
    (repos : list nat) (st : state) :
  NoDup repos ->
  forall s, steps w gc (dispatch_start repos st) (Live s) -> pc s = MReturned ->
  exists st', enrich w gc repos st = Done st'
              /\ heap st' = heap (data s) /\ cache st' = cache (data s).
Proof. intros Hnd s Hrun Hpc. by eapply every_schedule_agrees. Qed.

Lemma schedules_agree_on_the_store_witness :
  let gc := newGitClient "" false in
  NoDup [0; 1]
  /\ exists s,
       steps (H := ascii_lib) quiet_world gc (dispatch_start [0; 1] report_state) (Live s)
       /\ pc s = MReturned
       /\ exists st', @enrich ascii_lib quiet_world gc [0; 1] report_state = Done st'
            /\ heap st' = heap (data s) /\ cache st' = cache (data s).
Proof.
  intros gc.
  assert (Hnd : NoDup [0; 1]).
  { apply NoDup_cons. split; [|apply NoDup_singleton].
    intros Hin. apply list_elem_of_singleton in Hin. discriminate Hin. }
  assert (He : exists st', @enrich ascii_lib quiet_world gc [0; 1] report_state = Done st')
    by (eexists; vm_compute; reflexivity).
  destruct He as [st' He].
  pose proof (@enrich_is_a_run ascii_lib quiet_world gc [0; 1] report_state st' [] He) as Hrun.
  split; [exact Hnd|]. eexists. split; [exact Hrun|]. split; [reflexivity|].
  exact (@schedules_agree_on_the_store ascii_lib quiet_world gc [0; 1] report_state Hnd _ Hrun
           eq_refl).
Defined.

(** ** When [ParseDependencies] comes back *)

Section ComesBack.
Context `{GoLib}.
Variable w : world.
Hypothesis Hpages :
  forall url, Forall (fun t => 9 <= String.length t) (version_spans (colly_Visit w url)).

Lemma worker_total gc r st rec :
  store_ok st -> heap st !! r = Some rec -> exists st', worker w gc r st = Done st'.
Proof.
  intros (_ & _ & Hshape) Hr.
  pose proof (proj1 (Forall_lookup _ _) Hshape r rec Hr) as (Hh & _).
  destruct (GetLicense_pkggodev_total w gc rec Hh (Hpages (URL rec))) as (rec' & evs & Hg).
  unfold worker, GetLicense. rewrite Hr, Hg. simpl. eauto.
Qed.

Lemma enrich_total gc repos : forall st,
  store_ok st -> Forall (fun p => is_Some (heap st !! p)) repos ->
  exists st', enrich w gc repos st = Done st'.
Proof.
  induction repos as [|r repos IH]; intros st Hok Hvalid; simpl; [eauto|].
  apply Forall_cons in Hvalid as [[rec Hr] Hvalid]. rewrite Hr.
  destruct (worker_total gc r (emit (EvLogFetching (URL rec)) st) rec
              (store_ok_emit _ _ Hok) Hr) as [st1 Hw].
  rewrite Hw. simpl.
  destruct (worker_store_ok w gc r _ st1 (store_ok_emit _ _ Hok) Hw) as (Hok1 & _).
  destruct (worker_done w gc r _ st1 Hw) as (_ & rec' & _ & _ & Hh & _).
  apply IH; [done|]. eapply Forall_impl; [exact Hvalid|]. intros p Hp. simpl in *.
  apply lookup_lt_is_Some. rewrite Hh, length_insert. by apply lookup_lt_is_Some.
Qed.

Lemma ParseDependencies_total c includeIndirect thanks st :
  store_ok st ->
  exists res c' st', ParseDependencies w c includeIndirect thanks st = Done (res, c', st').
Proof.
  intros Hok. unfold ParseDependencies, ListRepositories.
  destruct (thanks && String.eqb (Getenv w "GITHUB_API_KEY") ""); [eauto|].
  destruct (Parse_store w (path c) includeIndirect st) as (Hh & Hc & _).
  destruct (Parse w (path c) includeIndirect st) as [[modules|e] st0]; [|eauto].
  simpl in Hh, Hc.
  pose proof (resolve_all_store_ok modules st0 (store_ok_same _ _ Hh Hc Hok)) as Hok1.
  pose proof (resolve_all_cached modules st0) as Hall.
  destruct (resolve_all modules st0) as [repos st1]. simpl in Hok1, Hall.
  destruct (enrich_total (newGitClient (Getenv w "GITHUB_API_KEY") thanks) repos
              (emit (EvLogFound (length repos)) st1) (store_ok_emit _ _ Hok1)) as [st' He].
  { apply Forall2_Forall_r with (P := fun m p => cache st1 !! Path m = Some p) (l := modules);
      [exact Hall|].
    apply Forall_forall. intros m _ p Hm. destruct Hok1 as (Hcache & _).
    destruct (Hcache _ _ Hm) as (r & Hr & _). simpl. eauto. }
  rewrite He. simpl. eauto.
Qed.

End ComesBack.

(** X27. In a store in order, when every version header of every page of
    the metadata service has the nine bytes the version callback slices
    off, [ParseDependencies] comes back, whatever the manifest, the key
    and the options: no repository is nil and no worker panics. *)
Theorem ParseDependencies_comes_back `{GoLib} (w : world) (c : Client)
    (includeIndirect thanks : bool) (st : state) :
  store_ok st ->
  (forall url, Forall (fun t => 9 <= String.length t) (version_spans (colly_Visit w url))) ->
  exists res c' st', ParseDependencies w c includeIndirect thanks st = Done (res, c', st').
Proof. intros Hok Hpages. by apply ParseDependencies_total. Qed.

Lemma ParseDependencies_comes_back_witness :
  store_ok init_state
  /\ (forall url, Forall (fun t => 9 <= String.length t)
                    (version_spans (colly_Visit mit_world url)))
  /\ exists res c' st',
       @ParseDependencies ascii_lib mit_world csv_client true true init_state
       = Done (res, c', st').
Proof.
  assert (Hpages : forall url, Forall (fun t => 9 <= String.length t)
                                 (version_spans (colly_Visit mit_world url))).
  { intros url. simpl. constructor; [simpl; lia | constructor]. }
  split; [exact store_ok_init|]. split; [exact Hpages|].
  exact (@ParseDependencies_comes_back ascii_lib mit_world csv_client true true init_state
           store_ok_init Hpages).
Defined.

(** X28. On the fallback path a call of [GetLicense] that comes back
    returns nil and has written neither [License] nor [Text], nor [Name],
    [URL], [Host] or [Author]; it does come back when every version
    header of the page has at least nine bytes. *)
Theorem GetLicense_fallback_frame `{GoLib} (w : world) (gc : gitClient) (r : Repository) :
  Host r = "pkg.go.dev" ->
  (forall r' err evs, GetLicense_on w gc r = Done (r', err, evs) ->
     err = None /\ Name r' = Name r /\ URL r' = URL r /\ Host r' = Host r
     /\ Author r' = Author r /\ Text r' = Text r /\ License r' = License r)
  /\ (Forall (fun t => 9 <= String.length t) (version_spans (colly_Visit w (URL r))) ->
      exists r' evs, GetLicense_on w gc r = Done (r', None, evs)).
Proof.
  intros Hh. split.
  - intros r' err evs Hg. exact (GetLicense_pkggodev_frame w gc r r' err evs Hh Hg).
  - intros Hpage. by apply GetLicense_pkggodev_total.
Qed.

Lemma GetLicense_fallback_frame_witness :
  let r := fallback_repo "example.com/m" "v1.0.0" in
  Host r = "pkg.go.dev"
  /\ exists r' evs,
       @GetLicense_on ascii_lib mit_world (newGitClient "" false) r = Done (r', None, evs)
       /\ License r' = License r /\ Text r' = Text r.
Proof.
  intros r. split; [reflexivity|].
  destruct (@GetLicense_fallback_frame ascii_lib mit_world (newGitClient "" false) r eq_refl)
    as [Hframe Htotal].
  destruct Htotal as (r' & evs & Hg).
  { simpl. constructor; [simpl; lia | constructor]. }
  exists r', evs. split; [exact Hg|].
  destruct (Hframe r' None evs Hg) as (_ & _ & _ & _ & _ & Ht & Hl). split; [exact Hl | exact Ht].
Defined.

(** X29. A worker writes to its own repository only: when it comes back
    the cache is as before, the heap has the same size and every other
    record is untouched, whatever the host and the answer. *)
Theorem worker_writes_only_its_record `{GoLib} (w : world) (gc : gitClient) (r : nat)
    (st st' : state) :
  worker w gc r st = Done st' ->
  cache st' = cache st /\ length (heap st') = length (heap st)
  /\ forall p, p <> r -> heap st' !! p = heap st !! p.
Proof.
  intros Hw. destruct (worker_done w gc r st st' Hw) as (rec & rec' & _ & _ & Hh & Hc).
  split; [done|]. split; [by rewrite Hh, length_insert|].
  intros p Hne. by apply (worker_other w gc r p st st' Hw).
Qed.

Lemma worker_writes_only_its_record_witness :
  exists st',
    @worker ascii_lib mit_world (newGitClient "" false) 0 report_state = Done st'
    /\ cache st' = cache report_state /\ length (heap st') = length (heap report_state)
    /\ forall p, p <> 0 -> heap st' !! p = heap report_state !! p.
Proof.
  eexists. split; [vm_compute; reflexivity|].
  exact (@worker_writes_only_its_record ascii_lib mit_world (newGitClient "" false) 0
           report_state _ eq_refl).
Defined.

(** X30. A call of [ParseDependencies] that returns an error has changed
    nothing: the client is the one it was given, with its previous
    dependencies, and heap and cache are as before. *)
Theorem ParseDependencies_error_changes_nothing `{GoLib} (w : world) (c : Client)
    (includeIndirect thanks : bool) (st : state) (e : error) (c' : Client) (st' : state) :
  ParseDependencies w c includeIndirect thanks st = Done (Some e, c', st') ->
  c' = c /\ heap st' = heap st /\ cache st' = cache st.
Proof.
  unfold ParseDependencies, ListRepositories.
  destruct (thanks && String.eqb (Getenv w "GITHUB_API_KEY") "");
    [by intros [= _ <- <-]|].
  destruct (Parse_store w (path c) includeIndirect st) as (Hh & Hc & _).
  destruct (Parse w (path c) includeIndirect st) as [[modules|e0] st0].
  - destruct (resolve_all modules st0) as [repos st1].
    destruct (enrich w _ repos _); simpl; done.
  - by intros [= _ <- <-].
Qed.

Lemma ParseDependencies_error_changes_nothing_witness :
  @ParseDependencies ascii_lib quiet_world csv_client false false report_state
  = Done (Some (ErrOther "open go.mod: no such file or directory"), csv_client,
          emit (EvReadFile "./go.mod") report_state)
  /\ csv_client = csv_client /\ heap (emit (EvReadFile "./go.mod") report_state)
                                = heap report_state.
Proof.
  split; [reflexivity|].
  destruct (@ParseDependencies_error_changes_nothing ascii_lib quiet_world csv_client false
              false report_state _ _ _ eq_refl) as (Hc & Hh & _).
  split; [exact Hc | exact Hh].
Defined.
